(** * expo-native-fonts: the iOS font injection pipeline

    A shallow embedding of [plugin/src/ios/withNativeFontsIOS.ts] and the
    properties of it that the specification states.

    The plugin is a one-shot, synchronous transformation: it filters the
    declared fonts, groups them by Xcode target, patches each target's
    [Info.plist] as text, copies the font directory, and registers every
    font as a resource of its target in the Xcode project object.

    Layout of the development:
    - [JsString], [Path]: the JavaScript string methods and the POSIX
      [path] functions the plugin calls;
    - the data model ([ExpoNativeFontOptions], [FontsGrouped], ...);
    - the world the plugin acts on (file system, project heap, console)
      and a small exception-and-state monad;
    - the functions of the source file, one definition each, same names;
    - the properties. *)

From Stdlib Require Import String Ascii List Arith NArith Lia.
From stdpp Require Import gmap strings list fin_maps sorting.
Import ListNotations.

Local Open Scope string_scope.
Local Open Scope nat_scope.

(* ===================================================================== *)
(** * JavaScript strings *)
(* ===================================================================== *)

(** Strings are sequences of characters; indices count characters.  The
    plugin only uses [indexOf], [slice], [replace] with a string pattern,
    and concatenation (template literals). *)
Module JsString.

(** The line break inside the source's multi-line template literals. *)
Definition NL : string := String (ascii_of_nat 10) EmptyString.

(** The double-quote character of the XML prologue. *)
Definition DQ : string := String (ascii_of_nat 34) EmptyString.

(** [s.startsWith(p)] *)
Fixpoint startsWith (p s : string) : bool :=
  match p, s with
  | EmptyString, _ => true
  | String _ _, EmptyString => false
  | String a p', String b s' => Ascii.eqb a b && startsWith p' s'
  end.

(** [s.indexOf(p)]; [None] stands for [-1]. *)
Fixpoint indexOf (p s : string) : option nat :=
  if startsWith p s then Some 0
  else match s with
       | EmptyString => None
       | String _ s' => S <$> indexOf p s'
       end.

(** [s.slice(0, n)] for [0 <= n]. *)
Fixpoint slice_to (n : nat) (s : string) : string :=
  match n, s with
  | S n', String c s' => String c (slice_to n' s')
  | _, _ => EmptyString
  end.

(** [s.slice(n)] for [0 <= n]. *)
Fixpoint slice_from (n : nat) (s : string) : string :=
  match n, s with
  | S n', String _ s' => slice_from n' s'
  | _, _ => s
  end.

(** [s.replace(p, r)] for a string pattern [p] and a replacement [r]
    without [$] patterns: only the first occurrence is replaced. *)
Definition replace (p r s : string) : string :=
  match indexOf p s with
  | None => s
  | Some i => slice_to i s +:+ r +:+ slice_from (i + String.length p) s
  end.

(** [p] occurs somewhere in [s]. *)
Definition includes (p s : string) : Prop :=
  exists a b, s = a +:+ p +:+ b.

End JsString.

(* ===================================================================== *)
(** * Node's [path] module (POSIX) *)
(* ===================================================================== *)

(** The build runs on macOS, so [path] is [path.posix]: the separator is
    the forward slash.  Each function follows the algorithm of Node's
    [lib/path.js]. *)
Module Path.

Definition is_sep (c : ascii) : bool := Ascii.eqb c "/".
Definition is_dot (c : ascii) : bool := Ascii.eqb c ".".

Fixpoint skip_while (f : ascii -> bool) (l : list ascii) : list ascii :=
  match l with
  | c :: l' => if f c then skip_while f l' else l
  | [] => []
  end.

Fixpoint keep_while (f : ascii -> bool) (l : list ascii) : list ascii :=
  match l with
  | c :: l' => if f c then c :: keep_while f l' else []
  | [] => []
  end.

(** The last component of a path, as characters: scanning from the end,
    trailing separators are skipped and the component runs back to the
    next separator. *)
Definition last_component (p : string) : list ascii :=
  rev (keep_while (fun c => negb (is_sep c))
         (skip_while is_sep (rev (list_ascii_of_string p)))).

(** [path.basename(p)] *)
Definition basename (p : string) : string :=
  string_of_list_ascii (last_component p).

(** [path.extname(p)]: from the last dot of the last component to its
    end; empty when there is no dot, when the last dot is the first
    character of the component, or when the component is [..]. *)
Definition extname (p : string) : string :=
  let b := last_component p in
  let after := keep_while (fun c => negb (is_dot c)) (rev b) in
  if existsb is_dot b then
    if length b =? S (length after) then EmptyString
    else if String.eqb (string_of_list_ascii b) ".." then EmptyString
    else string_of_list_ascii ("."%char :: rev after)
  else EmptyString.

(** A path cut at its separators. *)
Fixpoint split_sep (l : list ascii) (cur : list ascii) : list string :=
  match l with
  | [] => [string_of_list_ascii (rev cur)]
  | c :: l' =>
      if is_sep c then string_of_list_ascii (rev cur) :: split_sep l' []
      else split_sep l' (c :: cur)
  end.

Definition segments (p : string) : list string :=
  split_sep (list_ascii_of_string p) [].

Fixpoint join_sep (segs : list string) : string :=
  match segs with
  | [] => EmptyString
  | [s] => s
  | s :: rest => s +:+ "/" +:+ join_sep rest
  end.

(** [normalizeString]: empty and [.] segments vanish, [..] removes the
    segment before it, or is kept when there is none to remove and the
    path is relative.  [acc] is the result so far, last segment first. *)
Fixpoint normalize_segments (allowAboveRoot : bool)
    (segs : list string) (acc : list string) : list string :=
  match segs with
  | [] => rev acc
  | s :: rest =>
      if String.eqb s "" || String.eqb s "." then
        normalize_segments allowAboveRoot rest acc
      else if String.eqb s ".." then
        match acc with
        | top :: acc' =>
            if String.eqb top ".." then
              normalize_segments allowAboveRoot rest
                (if allowAboveRoot then ".." :: acc else acc)
            else normalize_segments allowAboveRoot rest acc'
        | [] =>
            normalize_segments allowAboveRoot rest
              (if allowAboveRoot then [".."] else [])
        end
      else normalize_segments allowAboveRoot rest (s :: acc)
  end.

(** [path.normalize(p)] *)
Definition normalize (p : string) : string :=
  match p with
  | EmptyString => "."
  | String c _ =>
      let isAbsolute := is_sep c in
      let trailingSeparator :=
        match rev (list_ascii_of_string p) with
        | d :: _ => is_sep d
        | [] => false
        end in
      let body :=
        join_sep (normalize_segments (negb isAbsolute) (segments p) []) in
      match body with
      | EmptyString =>
          if isAbsolute then "/"
          else if trailingSeparator then "./" else "."
      | _ =>
          let body' := if trailingSeparator then body +:+ "/" else body in
          if isAbsolute then "/" +:+ body' else body'
      end
  end.

(** [path.join(...parts)]: the non-empty parts joined by the separator,
    then normalised. *)
Definition join (parts : list string) : string :=
  match List.filter (fun s => negb (String.eqb s "")) parts with
  | [] => "."
  | nonempty => normalize (join_sep nonempty)
  end.

(** [path.dirname(p)] *)
Definition dirname (p : string) : string :=
  match p with
  | EmptyString => "."
  | String c rest =>
      let hasRoot := is_sep c in
      (* scan indices length-1 .. 1 from the end: skip trailing
         separators, skip the last component, stop at the separator
         before it *)
      let r := rev (list_ascii_of_string rest) in
      let r1 := skip_while is_sep r in
      let r2 := skip_while (fun c => negb (is_sep c)) r1 in
      match r1, r2 with
      | [], _ => if hasRoot then "/" else "."
      | _, [] => if hasRoot then "/" else "."
      | _, _ :: before =>
          (* [end] is the index of that separator *)
          if hasRoot && (length before =? 0) then "//"
          else String c (string_of_list_ascii (rev before))
      end
  end.

End Path.

(* ===================================================================== *)
(** * Data model *)
(* ===================================================================== *)

(** Modelled from the spec: the declaration [ExpoNativeFontOptions] of the
    package index (imported from [".."]).  [filePath] is required; [name],
    [platform] and [targets] are optional properties, absent ([None]) when
    the configuration leaves them out. *)
Record ExpoNativeFontOptions := {
  filePath : string;
  name : option string;
  platform : option string;
  targets : option (list string);
}.

(** Modelled from the spec: the declaration [ExpoNativeFontsOptions] of the
    package index.  [fonts] holds references to font declarations; [F] is
    the type of those references. *)
Record ExpoNativeFontsOptions (F : Type) := {
  fonts : list F;
  srcFolder : string;
}.
Arguments fonts {F} _.
Arguments srcFolder {F} _.

(** What a JavaScript computation can throw. *)
Inductive Exn :=
| Error (message : string)               (* [throw new Error(message)] *)
| TypeError (message : string)           (* raised by the language *)
| SystemError (code : string) (path : string)  (* raised by [fs] *)
| ExternalError (message : string).      (* raised by a collaborator *)

Inductive Outcome (A : Type) :=
| Ret (a : A)
| Throw (e : Exn).
Arguments Ret {A} a.
Arguments Throw {A} e.

(** ** Plain objects used as maps *)

(** [{ [targetId: string]: V }]: the own properties in creation order.
    Assigning to an existing key keeps its position; a new key goes last. *)
Module JsObject.

Definition t (V : Type) := list (string * V).

Fixpoint get {V} (k : string) (o : t V) : option V :=
  match o with
  | [] => None
  | (k', v) :: o' => if String.eqb k k' then Some v else get k o'
  end.

Fixpoint set {V} (k : string) (v : V) (o : t V) : t V :=
  match o with
  | [] => [(k, v)]
  | (k', v') :: o' =>
      if String.eqb k k' then (k, v) :: o' else (k', v') :: set k v o'
  end.

(** The properties every object literal inherits from
    [Object.prototype]. *)
Definition Object_prototype_keys : list string :=
  [ "constructor"; "__defineGetter__"; "__defineSetter__";
    "hasOwnProperty"; "__lookupGetter__"; "__lookupSetter__";
    "isPrototypeOf"; "propertyIsEnumerable"; "toString"; "valueOf";
    "__proto__"; "toLocaleString" ].

Definition inherited (k : string) : bool :=
  existsb (String.eqb k) Object_prototype_keys.

(** The value of the expression [o[k]]. *)
Inductive Property (V : Type) :=
| Own (v : V)        (* an own property *)
| Inherited          (* a function or object of [Object.prototype] *)
| Undefined.
Arguments Own {V} v.
Arguments Inherited {V}.
Arguments Undefined {V}.

Definition read {V} (k : string) (o : t V) : Property V :=
  match get k o with
  | Some v => Own v
  | None => if inherited k then Inherited else Undefined
  end.

(** A key is an array index when it is the canonical decimal form of an
    integer below [2^32 - 1]. *)
Definition digit (c : ascii) : option N :=
  let n := N_of_ascii c in
  if ((48 <=? n) && (n <=? 57))%N then Some (n - 48)%N else None.

Fixpoint digits (l : list ascii) (acc : N) : option N :=
  match l with
  | [] => Some acc
  | c :: l' =>
      match digit c with
      | Some d => digits l' (10 * acc + d)%N
      | None => None
      end
  end.

Definition array_index (k : string) : option N :=
  match k with
  | EmptyString => None
  | String c rest =>
      if Ascii.eqb c "0" && negb (String.eqb rest "") then None
      else match digits (list_ascii_of_string k) 0%N with
           | Some n => if (n <=? 4294967294)%N then Some n else None
           | None => None
           end
  end.

Definition is_array_index (k : string) : bool :=
  match array_index k with Some _ => true | None => false end.

Definition index_le (a b : string) : Prop :=
  (default 0%N (array_index a) <= default 0%N (array_index b))%N.

#[global] Instance index_le_dec (a b : string) : Decision (index_le a b) :=
  N.le_dec _ _.

(** [Object.keys(o)] and the order of [for (const k in o)]: array-index
    keys in ascending numeric order, then the other keys in creation
    order. *)
Definition keys {V} (o : t V) : list string :=
  let ks := map fst o in
  merge_sort index_le (filter (fun k => is_array_index k = true) ks)
    ++ filter (fun k => is_array_index k = false) ks.

End JsObject.

(** [type FontsGrouped = { [targetId: string]: ExpoNativeFontOptions[] }] *)
Definition FontsGrouped (F : Type) := JsObject.t (list F).

(** ** The Xcode project *)

(** An entry of the project's native-target section.  Entries without a
    [name] property (the section's comment entries) have [None]. *)
Record PBXNativeTarget := {
  pbx_name : option string;
}.

(** The argument object of [IOSConfig.XcodeUtils.addResourceFileToGroup].
    [project] is a reference into the heap of project objects. *)
Record AddResourceArgs := {
  filepath : string;
  groupName : string;
  project : nat;
  isBuildFile : bool;
  verbose : bool;
  targetUuid : string;
}.

(** A project object: [pbxNativeTargetSection] is the result of the method
    of that name, uuid and entry in the order [for ... in] visits them;
    [resourceFiles] are the registrations the object holds. *)
Record XcodeProject := {
  pbxNativeTargetSection : list (string * PBXNativeTarget);
  resourceFiles : list AddResourceArgs;
}.

(** The registration capability: given its argument object it may update
    the heap of project objects in any way, and returns a reference to a
    project object or throws. *)
Definition Capability : Type :=
  AddResourceArgs -> gmap nat XcodeProject -> Outcome nat * gmap nat XcodeProject.

(* ===================================================================== *)
(** * The world and its monad *)
(* ===================================================================== *)

Inductive LogEntry :=
| LogString (s : string)
| LogArray (l : list string).

(** The calls that change the file system or consult and change the
    project graph, in the order they are made. *)
Inductive Call :=
| mkdirSync_call (path : string)
| writeFileSync_call (path contents : string)
| copySync_call (src dest : string)
| pbxNativeTargetSection_call (project : nat)
| addResourceFileToGroup_call (args : AddResourceArgs).

(** [config] is one mutable object: [projectRoot] is
    [config.modRequest.projectRoot], [modResults] is [config.modResults],
    a reference to a project object. *)
Record World := {
  files : gmap string string;        (* regular files and their text *)
  dirs : gset string;                (* directories *)
  heap : gmap nat XcodeProject;      (* project objects *)
  projectRoot : string;
  modResults : nat;
  console : list LogEntry;
  calls : list Call;
}.

Definition M (A : Type) : Type := World -> Outcome A * World.

Definition ret {A} (a : A) : M A := fun w => (Ret a, w).
Definition throw {A} (e : Exn) : M A := fun w => (Throw e, w).
Definition bind {A B} (m : M A) (k : A -> M B) : M B :=
  fun w => match m w with
           | (Ret a, w') => k a w'
           | (Throw e, w') => (Throw e, w')
           end.
Definition lift {A} (o : Outcome A) : M A := fun w => (o, w).

Notation "x <- m ;; k" := (bind m (fun x => k))
  (at level 100, m at next level, right associativity).
Notation "m ;;; k" := (bind m (fun _ => k))
  (at level 100, right associativity).

(** [for (const x of l) body(x)] *)
Fixpoint for_of {A} (l : list A) (body : A -> M unit) : M unit :=
  match l with
  | [] => ret tt
  | x :: l' => body x ;;; for_of l' body
  end.

Definition get_world : M World := fun w => (Ret w, w).

Definition record (c : Call) : M unit :=
  fun w => (Ret tt,
            {| files := files w; dirs := dirs w; heap := heap w;
               projectRoot := projectRoot w; modResults := modResults w;
               console := console w; calls := calls w ++ [c] |}).

Definition console_log (e : LogEntry) : M unit :=
  fun w => (Ret tt,
            {| files := files w; dirs := dirs w; heap := heap w;
               projectRoot := projectRoot w; modResults := modResults w;
               console := console w ++ [e]; calls := calls w |}).

Definition set_modResults (l : nat) : M unit :=
  fun w => (Ret tt,
            {| files := files w; dirs := dirs w; heap := heap w;
               projectRoot := projectRoot w; modResults := l;
               console := console w; calls := calls w |}).

Definition set_fs (fs : gmap string string) (ds : gset string) : M unit :=
  fun w => (Ret tt,
            {| files := fs; dirs := ds; heap := heap w;
               projectRoot := projectRoot w; modResults := modResults w;
               console := console w; calls := calls w |}).

Definition set_heap (h : gmap nat XcodeProject) : M unit :=
  fun w => (Ret tt,
            {| files := files w; dirs := dirs w; heap := h;
               projectRoot := projectRoot w; modResults := modResults w;
               console := console w; calls := calls w |}).

(** ** The file system ([fs-extra]) *)

Module Fs.

Definition is_file (w : World) (p : string) : bool :=
  match files w !! p with Some _ => true | None => false end.

Definition is_dir (w : World) (p : string) : bool :=
  bool_decide (p ∈ dirs w).

(** The directories above [p], nearest first. *)
Fixpoint ancestors (fuel : nat) (p : string) : list string :=
  match fuel with
  | 0 => []
  | S n =>
      let d := Path.dirname p in
      if String.eqb d p then [] else d :: ancestors n d
  end.

(** [fsExtra.existsSync(p)] *)
Definition existsSync (p : string) : M bool :=
  fun w => (Ret (is_file w p || is_dir w p), w).

(** [fsExtra.mkdirSync(p, { recursive: true })]: creates [p] and the
    directories above it; fails when one of them is a regular file. *)
Definition mkdirSync (p : string) : M unit :=
  record (mkdirSync_call p) ;;;
  w <- get_world ;;
  let chain := p :: ancestors (String.length p) p in
  if is_file w p then throw (SystemError "EEXIST" p)
  else if existsb (is_file w) chain then throw (SystemError "ENOTDIR" p)
  else set_fs (files w) (list_to_set chain ∪ dirs w).

(** [fsExtra.writeFileSync(p, text)]: replaces the whole file.  The
    directory of [p] must be there: the call fails with [ENOTDIR] when a
    regular file is in the way, with [ENOENT] when nothing is. *)
Definition writeFileSync (p text : string) : M unit :=
  record (writeFileSync_call p text) ;;;
  w <- get_world ;;
  if is_dir w p then throw (SystemError "EISDIR" p)
  else if is_file w p || is_dir w (Path.dirname p)
  then set_fs (<[p := text]> (files w)) (dirs w)
  else if existsb (is_file w) (ancestors (String.length p) p)
  then throw (SystemError "ENOTDIR" p)
  else throw (SystemError "ENOENT" p).

(** [fsExtra.readFileSync(p, 'utf-8')] *)
Definition readFileSync (p : string) : M string :=
  fun w => match files w !! p with
           | Some text => (Ret text, w)
           | None =>
               if is_dir w p then (Throw (SystemError "EISDIR" p), w)
               else (Throw (SystemError "ENOENT" p), w)
           end.

(** [p] without its trailing separators; the root stays. *)
Definition strip_trailing (p : string) : string :=
  match rev (Path.skip_while Path.is_sep (rev (list_ascii_of_string p))) with
  | [] => match p with EmptyString => "" | String _ _ => "/" end
  | l => string_of_list_ascii l
  end.

(** [fsExtra.lstatSync(p).isDirectory()].  The store names files and
    directories without trailing separators, and a path with trailing
    separators names the directory that the path without them names:
    [path.join] keeps one such separator, and the system calls look
    through it.  [ENOTDIR] for a regular file named with trailing
    separators, [ENOENT] when nothing is there. *)
Definition lstatSync_isDirectory (p : string) : M bool :=
  fun w => if is_dir w p then (Ret true, w)
           else if is_file w p then (Ret false, w)
           else if is_dir w (strip_trailing p) then (Ret true, w)
           else if is_file w (strip_trailing p)
           then (Throw (SystemError "ENOTDIR" p), w)
           else (Throw (SystemError "ENOENT" p), w).

(** Is [p] strictly below the directory [d]? *)
Definition below (d p : string) : bool :=
  JsString.startsWith (d +:+ "/") p.

Definition relocate (src dest p : string) : string :=
  dest +:+ JsString.slice_from (String.length src) p.

(** What [copySync] finds below the source: directories and regular
    files. *)
Inductive Entry :=
| dir_entry (p : string)
| file_entry (p text : string).

Definition entry_path (e : Entry) : string :=
  match e with
  | dir_entry p => p
  | file_entry p _ => p
  end.

(** The copy of one entry of the source to its place below [dest].  A
    directory is made unless a regular file has its name; a regular file
    is written, over a file that is there, unless a directory has its
    name. *)
Definition copy_entry (src dest : string) (e : Entry)
    (fs : gmap string string) (ds : gset string)
    : option Exn * (gmap string string * gset string) :=
  match e with
  | dir_entry p =>
      let p' := relocate src dest p in
      match fs !! p' with
      | Some _ =>
          (Some (Error ("Cannot overwrite non-directory '" +:+ p'
                        +:+ "' with directory '" +:+ p +:+ "'.")),
           (fs, ds))
      | None => (None, (fs, {[p']} ∪ ds))
      end
  | file_entry p text =>
      let p' := relocate src dest p in
      if bool_decide (p' ∈ ds) then
        (Some (Error ("Cannot overwrite directory '" +:+ p'
                      +:+ "' with non-directory '" +:+ p +:+ "'.")),
         (fs, ds))
      else (None, (<[p' := text]> fs, ds))
  end.

(** The entries are copied one after the other; the first that cannot be
    copied ends the copy, and what was copied before it stays. *)
Fixpoint copy_entries (src dest : string) (entries : list Entry)
    (fs : gmap string string) (ds : gset string)
    : option Exn * (gmap string string * gset string) :=
  match entries with
  | [] => (None, (fs, ds))
  | e :: rest =>
      match copy_entry src dest e fs ds with
      | (None, (fs', ds')) => copy_entries src dest rest fs' ds'
      | failed => failed
      end
  end.

(** The entries below [src].  [fs-extra] walks the source in the order
    [readdirSync] lists it, which Node leaves to the file system; here
    the directories come first, then the regular files, each in the
    order the store enumerates them. *)
Definition entries_below (src : string) (w : World) : list Entry :=
  (map dir_entry
       (List.filter (fun p => below src p) (elements (dirs w)))
   ++ map (fun '(p, text) => file_entry p text)
          (List.filter (fun '(p, _) => below src p)
                       (map_to_list (files w))))%list.

(** [fsExtra.copySync(src, dest)] for a directory [src]: [dest] is made
    when it is missing, and every directory and regular file below [src]
    is copied to the same place below [dest], over the files that are
    there; nothing else in [dest] is removed.  The source is read under
    its name without trailing separators.  The copy is refused when
    [dest] is [src], lies below [src], or is a regular file, and it stops
    where a directory would replace a regular file or a regular file a
    directory. *)
Definition copySync (src dest : string) : M unit :=
  record (copySync_call src dest) ;;;
  w <- get_world ;;
  let root := strip_trailing src in
  if String.eqb root dest then
    throw (Error "Source and destination must not be the same.")
  else if below root dest then
    throw (Error ("Cannot copy '" +:+ src +:+ "' to a subdirectory of itself, '"
                  +:+ dest +:+ "'."))
  else if is_file w dest then
    throw (Error ("Cannot overwrite non-directory '" +:+ dest
                  +:+ "' with directory '" +:+ src +:+ "'."))
  else
    let '(failed, (fs, ds)) :=
      copy_entries root dest (entries_below root w)
        (files w) ({[dest]} ∪ dirs w) in
    set_fs fs ds ;;;
    match failed with
    | Some e => throw e
    | None => ret tt
    end.

End Fs.

(* ===================================================================== *)
(** * The plugin: [withNativeFontsIOS.ts] *)
(* ===================================================================== *)

(** A string that may be absent is truthy when it is present and not
    empty. *)
Definition truthy (a : option string) : option string :=
  match a with
  | Some s => if String.eqb s "" then None else Some s
  | None => None
  end.

(** [a || b] *)
Definition or_else (a : option string) (b : string) : string :=
  match truthy a with
  | Some s => s
  | None => b
  end.

Definition indent8 : string := "        ".
Definition indent12 : string := "            ".

(** The document written when a target has no [Info.plist] yet. *)
Definition emptyInfoPlist : string :=
  let NL := JsString.NL in
  let DQ := JsString.DQ in
  "<?xml version=" +:+ DQ +:+ "1.0" +:+ DQ +:+ " encoding=" +:+ DQ +:+ "UTF-8"
    +:+ DQ +:+ "?>" +:+ NL +:+
  indent12 +:+ "<!DOCTYPE plist PUBLIC " +:+ DQ +:+ "-//Apple//DTD PLIST 1.0//EN"
    +:+ DQ +:+ " " +:+ DQ +:+ "http://www.apple.com/DTDs/PropertyList-1.0.dtd"
    +:+ DQ +:+ ">" +:+ NL +:+
  indent12 +:+ "<plist version=" +:+ DQ +:+ "1.0" +:+ DQ +:+ ">" +:+ NL +:+
  indent12 +:+ "<dict>" +:+ NL +:+
  indent12 +:+ "</dict>" +:+ NL +:+
  indent12 +:+ "</plist>" +:+ NL +:+
  indent12.

(** The messages of the plugin's own errors. *)
Definition targets_required (font : ExpoNativeFontOptions) : string :=
  "Targets is required for iOS font " +:+ or_else (name font) (filePath font).

Definition cannot_find_target (targetName : string) : string :=
  "expo-native-fonts:: cannot find target " +:+ targetName
    +:+ ". Has the target been set up correctly?".

Definition no_dict_or_plist_tag (plistFilePath : string) : string :=
  "Your Info.plist file at " +:+ plistFilePath
    +:+ " does not have a <dict> or </plist> tag. Please add this to your file.".

Definition not_a_directory : string :=
  "The provided sourceDir is not a directory. This value must be the directory of your font files.".



Section Plugin.

(** Font declarations are JavaScript objects handled by reference: [F]
    is the type of the references and [deref] reads the object behind
    one.  The plugin never writes through a font reference. *)
Context {F : Type} (deref : F -> ExpoNativeFontOptions).

(** [IOSConfig.XcodeUtils.addResourceFileToGroup] *)
Context (addResourceFileToGroup : Capability).

Definition getIOSFonts (options : ExpoNativeFontsOptions F) : list F :=
  List.filter
    (fun f => match platform (deref f) with
              | Some p => negb (String.eqb p "android")
              | None => true
              end)
    (fonts options).

(** The inner loop of [groupByTarget]: [for (const target of targets)]. *)
Fixpoint groupByTarget_targets (font : F) (targets : list string)
    (groupedFonts : FontsGrouped F) : Outcome (FontsGrouped F) :=
  match targets with
  | [] => Ret groupedFonts
  | target :: rest =>
      match JsObject.read target groupedFonts with
      | JsObject.Own bucket =>
          groupByTarget_targets font rest
            (JsObject.set target (bucket ++ [font])%list groupedFonts)
      | JsObject.Undefined =>
          groupByTarget_targets font rest
            (JsObject.set target ([] ++ [font])%list groupedFonts)
      | JsObject.Inherited =>
          (* spreading a value that is not iterable *)
          Throw (TypeError "groupedFonts[target] is not iterable")
      end
  end.

(** The outer loop of [groupByTarget]: [for (const font of fonts)]. *)
Fixpoint groupByTarget_fonts (fonts : list F)
    (groupedFonts : FontsGrouped F) : Outcome (FontsGrouped F) :=
  match fonts with
  | [] => Ret groupedFonts
  | font :: rest =>
      match targets (deref font) with
      | None =>
          Throw (Error (targets_required (deref font)))
      | Some ts =>
          match groupByTarget_targets font ts groupedFonts with
          | Ret groupedFonts' => groupByTarget_fonts rest groupedFonts'
          | Throw e => Throw e
          end
      end
  end.

Definition groupByTarget (fonts : list F) : Outcome (FontsGrouped F) :=
  groupByTarget_fonts fonts [].

Definition getFontName (font : ExpoNativeFontOptions) : string :=
  match truthy (name font) with
  | Some name => name
  | None =>
      let ext := Path.extname (filePath font) in
      JsString.replace ext "" (Path.basename (filePath font))
  end.

(** The result of [getPBXTargetByName]: [{ uuid, target }], both [null]
    ([None]) when the scan finds nothing. *)
Record PBXTargetByName := {
  uuid : option string;
  target : option PBXNativeTarget;
}.

(** The scan of [getPBXTargetByName]: [for (const uuid in targetSection)]. *)
Fixpoint getPBXTargetByName_scan
    (targetSection : list (string * PBXNativeTarget)) (name : string)
    : PBXTargetByName :=
  match targetSection with
  | [] => {| uuid := None; target := None |}
  | (uuid, target) :: rest =>
      match pbx_name target with
      | Some n =>
          if String.eqb n name
          then {| uuid := Some uuid; target := Some target |}
          else getPBXTargetByName_scan rest name
      | None => getPBXTargetByName_scan rest name
      end
  end.

Definition getPBXTargetByName (project : nat) (name : string)
    : M PBXTargetByName :=
  record (pbxNativeTargetSection_call project) ;;;
  w <- get_world ;;
  match heap w !! project with
  | Some obj => ret (getPBXTargetByName_scan (pbxNativeTargetSection obj) name)
  | None => throw (TypeError "project.pbxNativeTargetSection is not a function")
  end.

(** The call of the registration capability. *)
Definition call_addResourceFileToGroup (args : AddResourceArgs) : M nat :=
  record (addResourceFileToGroup_call args) ;;;
  w <- get_world ;;
  let '(result, heap') := addResourceFileToGroup args (heap w) in
  set_heap heap' ;;;
  lift result.

(** The body of the loop of [addFontToXcodeProj] over [fontFiles].
    [project] is the constant bound before the loop. *)
Definition addFontToXcodeProj_file (project : nat)
    (targetUuid filePath : string) : M unit :=
  console_log (LogString ("Adding resource file " +:+ filePath)) ;;;
  result <- call_addResourceFileToGroup
              {| filepath := Path.join ["Fonts"; filePath];
                 groupName := "Resources";
                 project := project;
                 isBuildFile := true;
                 verbose := true;
                 targetUuid := targetUuid |} ;;
  set_modResults result.

Definition addFontToXcodeProj (options : ExpoNativeFontsOptions F)
    (targetName : string) (fonts : list F) : M unit :=
  console_log (LogString ("Adding fonts to target " +:+ targetName)) ;;;
  w <- get_world ;;
  let project := modResults w in
  let fontFiles := map (fun font => filePath (deref font)) fonts in
  console_log (LogString "Font files:") ;;;
  console_log (LogArray fontFiles) ;;;
  console_log (LogString ("Searching for target " +:+ targetName)) ;;;
  found <- getPBXTargetByName project targetName ;;
  match target found, truthy (uuid found) with
  | Some _, Some targetUuid =>
      console_log (LogString ("Target UUID: " +:+ targetUuid)) ;;;
      for_of fontFiles (addFontToXcodeProj_file project targetUuid) ;;;
      console_log (LogString "Resource files copied successfully.")
  | _, _ => throw (Error (cannot_find_target targetName))
  end.

(** [insertionKeys]: the [reduce] over the target's fonts. *)
Definition insertionKeys (targetFonts : list F) : string :=
  fold_left
    (fun contents font =>
       let name := Path.basename (filePath (deref font)) in
       contents +:+ JsString.NL +:+ indent12 +:+ "<string>" +:+ name
         +:+ "</string>")
    targetFonts "".

Definition insertionContents (targetFonts : list F) : string :=
  "<key>UIAppFonts</key>" +:+ JsString.NL +:+
  indent8 +:+ "<array>" +:+ JsString.NL +:+
  indent8 +:+ insertionKeys targetFonts +:+ JsString.NL +:+
  indent8 +:+ "</array>".

Definition plistFilePath_of (projectRoot targetName : string) : string :=
  Path.join [projectRoot; "ios"; targetName; "Info.plist"].

(** The body of the loop of [updateInfoPlist], for one target. *)
Definition updateInfoPlist_target (grouped : FontsGrouped F)
    (targetName : string) : M unit :=
  match JsObject.get targetName grouped with
  | None => throw (TypeError "targetFonts is undefined")
  | Some targetFonts =>
      w <- get_world ;;
      let plistFilePath := plistFilePath_of (projectRoot w) targetName in
      console_log (LogString ("plistFilePath: " +:+ plistFilePath)) ;;;
      present <- Fs.existsSync plistFilePath ;;
      (if present then ret tt
       else
         let directory := Path.dirname plistFilePath in
         made <- Fs.existsSync directory ;;
         (if made then ret tt else Fs.mkdirSync directory) ;;;
         Fs.writeFileSync plistFilePath emptyInfoPlist) ;;;
      contents <- Fs.readFileSync plistFilePath ;;
      let dictTag := "<dict>" in
      insertIndex <-
        match JsString.indexOf dictTag contents with
        | Some dictIndex => ret (dictIndex + String.length dictTag)
        | None =>
            console_log (LogString contents) ;;;
            console_log (LogString "dictIndex: -1") ;;;
            match JsString.indexOf "</plist>" contents with
            | None =>
                throw (Error (no_dict_or_plist_tag plistFilePath))
            | Some plistEndIndex => ret plistEndIndex
            end
        end ;;
      let newPlistContents :=
        JsString.slice_to insertIndex contents
          +:+ insertionContents targetFonts
          +:+ JsString.slice_from insertIndex contents in
      Fs.writeFileSync plistFilePath newPlistContents
  end.

Definition updateInfoPlist (options : ExpoNativeFontsOptions F)
    (grouped : FontsGrouped F) : M unit :=
  console_log (LogString "Updating Info.plist files") ;;;
  for_of (JsObject.keys grouped) (updateInfoPlist_target grouped).

Definition copyFontFiles (options : ExpoNativeFontsOptions F) : M unit :=
  w <- get_world ;;
  console_log (LogString "Copying files") ;;;
  let sourceDir := Path.join [projectRoot w; srcFolder options] in
  let targetDir := Path.join [projectRoot w; "ios"; "Fonts"] in
  console_log (LogString ("SourceDir: " +:+ sourceDir)) ;;;
  console_log (LogString ("TargetDir: " +:+ targetDir)) ;;;
  isDirectory <- Fs.lstatSync_isDirectory sourceDir ;;
  (if isDirectory then ret tt
   else throw (Error not_a_directory)) ;;;
  present <- Fs.existsSync targetDir ;;
  (if present then ret tt else Fs.mkdirSync targetDir) ;;;
  Fs.copySync sourceDir targetDir ;;;
  console_log (LogString "Font files copied to ios/Fonts").

Definition updateXcodeProject (options : ExpoNativeFontsOptions F)
    (grouped : FontsGrouped F) : M unit :=
  let targets := JsObject.keys grouped in
  copyFontFiles options ;;;
  for_of targets (fun target =>
    match JsObject.get target grouped with
    | Some fonts => addFontToXcodeProj options target fonts
    | None => throw (TypeError "fonts is undefined")
    end).

Definition injectExpoNativeFontsIOS (options : ExpoNativeFontsOptions F)
    : M unit :=
  let iosFonts := getIOSFonts options in
  grouped <- lift (groupByTarget iosFonts) ;;
  updateInfoPlist options grouped ;;;
  updateXcodeProject options grouped.

End Plugin.

(* ===================================================================== *)
(** * Notions used to state the properties *)
(* ===================================================================== *)

Section Notions.

Context {F : Type} (deref : F -> ExpoNativeFontOptions).

(** The array element written for one font. *)
Definition string_entry (font : F) : string :=
  JsString.NL +:+ indent12 +:+ "<string>"
    +:+ Path.basename (filePath (deref font)) +:+ "</string>".

Fixpoint concat_strings (l : list string) : string :=
  match l with
  | [] => ""
  | s :: l' => s +:+ concat_strings l'
  end.

(** One copy of [font] for every time [ts] lists [t]. *)
Definition mentions (font : F) (ts : list string) (t : string) : list F :=
  flat_map (fun t' => if String.eqb t' t then [font] else []) ts.

(** The fonts that name the target [t], in declaration order, once for
    every time a font's [targets] lists [t]. *)
Definition bucket_of (t : string) (fonts : list F) : list F :=
  flat_map
    (fun font => mentions font (default [] (targets (deref font))) t)
    fonts.

(** The bucket of a target in a grouping under construction. *)
Definition bucket (g : FontsGrouped F) (t : string) : list F :=
  default [] (JsObject.get t g).

Definition no_empty_bucket (g : FontsGrouped F) : Prop :=
  forall t, JsObject.get t g <> Some [].


(** The fonts whose [targets] lists [t], in declaration order. *)
Definition fonts_naming (t : string) (fonts : list F) : list F :=
  List.filter
    (fun font => existsb (String.eqb t) (default [] (targets (deref font))))
    fonts.

End Notions.



(** A capability that returns the reference it was given: it updates the
    project object in place. *)
Definition returns_its_argument (register : Capability) : Prop :=
  forall args h p h', register args h = (Ret p, h') -> p = project args.

(** The kinds of calls of the three effectful steps. *)
Definition plist_call (c : Call) : Prop :=
  match c with
  | mkdirSync_call _ | writeFileSync_call _ _ => True
  | _ => False
  end.

Definition project_call (c : Call) : Prop :=
  match c with
  | pbxNativeTargetSection_call _ | addResourceFileToGroup_call _ => True
  | _ => False
  end.

Definition is_copySync (c : Call) : bool :=
  match c with copySync_call _ _ => true | _ => false end.

Definition is_writeFileSync (c : Call) : bool :=
  match c with writeFileSync_call _ _ => true | _ => false end.

Definition is_project_call (c : Call) : bool :=
  match c with
  | pbxNativeTargetSection_call _ | addResourceFileToGroup_call _ => true
  | _ => false
  end.

(** In a journal of calls, every call of the kind [P] comes before every
    call of the kind [Q]. *)
Definition precedes (P Q : Call -> bool) (cs : list Call) : Prop :=
  forall i j ci cj,
    cs !! i = Some ci -> cs !! j = Some cj ->
    P ci = true -> Q cj = true -> i < j.

(** Every [copySync] comes before every [writeFileSync]. *)
Definition copy_before_writes (cs : list Call) : Prop :=
  precedes is_copySync is_writeFileSync cs.

(** [c] is the write of [targetName]'s patched [Info.plist]: the text
    written contains the font array of the target's bucket. *)
Definition patched_plist_write {F} (deref : F -> ExpoNativeFontOptions)
    (root : string) (grouped : FontsGrouped F) (targetName : string)
    (c : Call) : Prop :=
  exists targetFonts text,
    JsObject.get targetName grouped = Some targetFonts
    /\ c = writeFileSync_call (plistFilePath_of root targetName) text
    /\ JsString.includes (insertionContents deref targetFonts) text.

Section Rounds.

Context {F : Type} (deref : F -> ExpoNativeFontOptions).

(** What one round of the loop of [updateInfoPlist] leaves behind: the
    project is untouched, the calls are those of the property-list
    step, and the round either wrote the patched file or threw an error
    other than an unresolved target. *)
Definition plist_round (grouped : FontsGrouped F) (targetName : string)
    (w : World) (o : Outcome unit) (w' : World) : Prop :=
  projectRoot w' = projectRoot w
  /\ heap w' = heap w
  /\ modResults w' = modResults w
  /\ exists cs,
       calls w' = (calls w ++ cs)%list
       /\ Forall plist_call cs
       /\ match o with
          | Ret _ =>
              exists c, In c cs
                /\ patched_plist_write deref (projectRoot w) grouped
                     targetName c
          | Throw e => forall t, e <> Error (cannot_find_target t)
          end.

(** What [copyFontFiles] leaves behind: at most one [mkdirSync] of the
    destination, then at most one [copySync], which has happened when
    the step returns. *)
Definition copy_round (options : ExpoNativeFontsOptions F)
    (w : World) (o : Outcome unit) (w' : World) : Prop :=
  let sourceDir := Path.join [projectRoot w; srcFolder options] in
  let targetDir := Path.join [projectRoot w; "ios"; "Fonts"] in
  projectRoot w' = projectRoot w
  /\ heap w' = heap w
  /\ modResults w' = modResults w
  /\ exists mk cp,
       calls w' = (calls w ++ mk ++ cp)%list
       /\ (mk = [] \/ mk = [mkdirSync_call targetDir])
       /\ (cp = [] \/ cp = [copySync_call sourceDir targetDir])
       /\ (o = Ret tt -> cp = [copySync_call sourceDir targetDir]).

End Rounds.

Arguments plist_round : simpl never.
Arguments copy_round : simpl never.

(* ===================================================================== *)
(** * Well-formed documents *)
(* ===================================================================== *)

(** What it takes for the text of a property list to be a document an
    XML reader accepts: the tags are balanced and properly nested, there
    is exactly one root element, outside of it there is only white space
    and declarations, [<] only starts a tag, and in the text of an
    element [&] only starts a reference such as [&amp;].  Comments and
    CDATA sections, which the plugin never writes, and attribute values
    holding [<], [>] or [&] are not covered. *)
Module Xml.
















End Xml.



(* ===================================================================== *)
(** * The file system and the registrations of a run *)
(* ===================================================================== *)

Section RoundsOfFiles.

Context {F : Type} (deref : F -> ExpoNativeFontOptions).

(** A step that removes nothing: every regular file stays a regular
    file and every directory stays. *)
Definition keeps_files (w w' : World) : Prop :=
  (forall p, Fs.is_file w p = true -> Fs.is_file w' p = true)
  /\ dirs w ⊆ dirs w'.

(** A step that puts no directory where a regular file is. *)
Definition keeps_regular (w w' : World) : Prop :=
  forall p, Fs.is_file w p = true -> Fs.is_dir w p = false ->
    Fs.is_dir w' p = false.

(** What one round of the loop of [updateInfoPlist] does to the file
    system: only the target's [Info.plist] is written, nothing is
    removed, and when the round returns the file holds the font array of
    the target's bucket. *)
Definition plist_files_round (grouped : FontsGrouped F) (targetName : string)
    (w : World) (o : Outcome unit) (w' : World) : Prop :=
  let plistFilePath := plistFilePath_of (projectRoot w) targetName in
  (forall p, p <> plistFilePath -> files w' !! p = files w !! p)
  /\ keeps_files w w'
  /\ keeps_regular w w'
  /\ o <> Throw (Error not_a_directory)
  /\ (o = Ret tt ->
      exists targetFonts text,
        JsObject.get targetName grouped = Some targetFonts
        /\ files w' !! plistFilePath = Some text
        /\ JsString.includes (insertionContents deref targetFonts) text).

End RoundsOfFiles.

Arguments plist_files_round : simpl never.
Arguments keeps_files : simpl never.
Arguments keeps_regular : simpl never.


(** The arguments of the registration calls of a journal, in order. *)
Definition registrations (cs : list Call) : list AddResourceArgs :=
  flat_map
    (fun c => match c with
              | addResourceFileToGroup_call args => [args]
              | _ => []
              end)
    cs.

(** A path segment that [path.normalize] leaves alone: not empty, not
    [.] or [..], and without a separator. *)
Definition plain_segment (s : string) : bool :=
  negb (String.eqb s "") && negb (String.eqb s ".")
  && negb (String.eqb s "..")
  && forallb (fun c => negb (Path.is_sep c)) (list_ascii_of_string s).

(** The absolute path with the segments [segs]. *)
Definition absolute_path (segs : list string) : string :=
  "/" +:+ Path.join_sep segs.

(* ===================================================================== *)
(** * Sample configurations *)
(* ===================================================================== *)

Module Sample.

(** The registration capability, [IOSConfig.XcodeUtils.addResourceFileToGroup]
    of [@expo/config-plugins], as far as the plugin depends on it: it adds
    the file to the project object it is given and returns that same
    object. *)
Definition registered (args : AddResourceArgs) (p : XcodeProject) : XcodeProject :=
  {| pbxNativeTargetSection := pbxNativeTargetSection p;
     resourceFiles := resourceFiles p ++ [args] |}.

Definition addInPlace : Capability := fun args h =>
  match h !! project args with
  | Some p => (Ret (project args), <[project args := registered args p]> h)
  | None => (Throw (ExternalError "unknown project"), h)
  end.

(** Font objects, referred to by their position in this table. *)
Definition fontTable : list ExpoNativeFontOptions :=
  [ {| filePath := "font1.ttf"; name := None; platform := None;
       targets := Some ["A"; "B"] |};
    {| filePath := "sub/font2.ttf"; name := Some "Two"; platform := Some "ios";
       targets := Some ["A"] |};
    {| filePath := "droid.ttf"; name := None; platform := Some "android";
       targets := None |};
    {| filePath := "lonely.ttf"; name := None; platform := None;
       targets := Some [] |};
    {| filePath := "untargeted.ttf"; name := None; platform := None;
       targets := None |};
    {| filePath := "font3.ttf"; name := None; platform := None;
       targets := Some ["Missing"] |};
    {| filePath := "font4.ttf"; name := None; platform := None;
       targets := Some ["A"; "toString"] |};
    {| filePath := "fonts/A&B.ttf"; name := None; platform := None;
       targets := Some ["B"] |};
    {| filePath := "font1.ttf"; name := None; platform := None;
       targets := Some ["Fonts"] |};
    {| filePath := "<dict>.ttf"; name := None; platform := None;
       targets := Some ["A"] |};
    {| filePath := "font1.ttf"; name := None; platform := None;
       targets := Some ["A/"] |} ].

Definition fontAt (r : nat) : ExpoNativeFontOptions :=
  nth r fontTable
    {| filePath := ""; name := None; platform := None; targets := None |}.

Definition options (refs : list nat) : ExpoNativeFontsOptions nat :=
  {| fonts := refs; srcFolder := "assets/fonts" |}.

Definition project0 : XcodeProject :=
  {| pbxNativeTargetSection :=
       [ ("13B07F861A680F5B00A75B9A", {| pbx_name := Some "A" |});
         ("13B07F861A680F5B00A75B9A_comment", {| pbx_name := None |});
         ("00E356ED1AD99517003FC87E", {| pbx_name := Some "B" |});
         ("2D02E47A1E0B4A5D006451C7", {| pbx_name := Some "B" |}) ];
     resourceFiles := [] |}.

(** A project checkout: the font folder, target [A] with an
    [Info.plist], target [B] without one. *)
Definition world0 : World :=
  {| files := {[ "/app/assets/fonts/font1.ttf" := "font1 bytes";
                  "/app/assets/fonts/sub/font2.ttf" := "font2 bytes";
                  "/app/ios/A/Info.plist" := "<plist><dict></dict></plist>" ]};
     dirs := {[ "/"; "/app"; "/app/assets"; "/app/assets/fonts";
                "/app/assets/fonts/sub"; "/app/ios"; "/app/ios/A" ]};
     heap := {[ 0 := project0 ]};
     projectRoot := "/app";
     modResults := 0;
     console := [];
     calls := [] |}.

Definition with_plist (text : string) : World :=
  {| files := <["/app/ios/A/Info.plist" := text]> (files world0);
     dirs := dirs world0; heap := heap world0;
     projectRoot := projectRoot world0; modResults := modResults world0;
     console := []; calls := [] |}.


End Sample.

(* ===================================================================== *)
(** * Proof automation *)
(* ===================================================================== *)

(** Unfolds the monad and the file-system primitives of a computation. *)
Ltac run_monad :=
  cbv beta iota delta
    [bind ret throw lift get_world record console_log set_fs set_heap
     set_modResults Fs.existsSync Fs.readFileSync Fs.writeFileSync
     Fs.mkdirSync Fs.lstatSync_isDirectory Fs.is_file Fs.is_dir];
  simpl.

(** Case analysis on every test a computation makes. *)
Ltac split_run :=
  repeat match goal with
         | |- context [if existsb ?f ?l then _ else _] =>
             destruct (existsb f l) eqn:?; run_monad
         | |- context [match ?x with _ => _ end] =>
             lazymatch x with
             | context [match _ with _ => _ end] => fail
             | _ => destruct x eqn:?; run_monad
             end
         end.

(* ===================================================================== *)
(** * Properties of the string and path functions *)
(* ===================================================================== *)

Section StringFacts.

Import JsString.

Lemma append_cons (x : ascii) (a b : string) :
  String x a +:+ b = String x (a +:+ b).
Proof. reflexivity. Qed.

Lemma append_assoc (a b c : string) : (a +:+ b) +:+ c = a +:+ (b +:+ c).
Proof.
  induction a as [|x a IH]; [done|]. rewrite !append_cons. by f_equal.
Qed.

Lemma append_empty_r (a : string) : a +:+ "" = a.
Proof.
  induction a as [|x a IH]; [done|]. rewrite append_cons. by f_equal.
Qed.

Lemma length_append (a b : string) :
  String.length (a +:+ b) = String.length a + String.length b.
Proof.
  induction a as [|x a IH]; [done|]. rewrite append_cons. simpl.
  by rewrite IH.
Qed.

Lemma slice_to_from (n : nat) (s : string) :
  slice_to n s +:+ slice_from n s = s.
Proof.
  revert s; induction n as [|n IH]; intros [|c s]; simpl; try done.
  rewrite append_cons. by rewrite IH.
Qed.

Lemma slice_from_append (a b : string) :
  slice_from (String.length a) (a +:+ b) = b.
Proof.
  induction a as [|x a IH]; [by destruct b|]. by rewrite append_cons.
Qed.

Lemma slice_to_append (a b : string) :
  slice_to (String.length a) (a +:+ b) = a.
Proof.
  induction a as [|x a IH]; [by destruct b|]. rewrite append_cons. simpl.
  by rewrite IH.
Qed.

Lemma startsWith_split (p s : string) :
  startsWith p s = true -> s = p +:+ slice_from (String.length p) s.
Proof.
  revert s; induction p as [|a p IH]; intros [|b s]; simpl; try done.
  intros [Hab Hp]%andb_prop. apply Ascii.eqb_eq in Hab as ->.
  rewrite append_cons. by rewrite <- IH.
Qed.

Lemma startsWith_append (p b : string) : startsWith p (p +:+ b) = true.
Proof.
  induction p as [|a p IH]; [done|]. rewrite append_cons. simpl.
  by rewrite Ascii.eqb_refl, IH.
Qed.

(** [indexOf] finds the first occurrence: the text splits around the
    pattern at the index returned, and the pattern starts at no earlier
    index. *)
Lemma indexOf_Some (p s : string) (i : nat) :
  indexOf p s = Some i ->
  s = slice_to i s +:+ p +:+ slice_from (i + String.length p) s
  /\ String.length (slice_to i s) = i
  /\ forall j, j < i -> startsWith p (slice_from j s) = false.
Proof.
  revert i; induction s as [|c s IH]; intros i; simpl.
  - destruct (startsWith p "") eqn:E; [|done]. intros [= <-]. simpl.
    split; [by apply startsWith_split | split; [done | lia]].
  - destruct (startsWith p (String c s)) eqn:E.
    + intros [= <-]. simpl.
      split; [by apply startsWith_split | split; [done | lia]].
    + destruct (indexOf p s) as [k|] eqn:Ek; simpl; [|done].
      intros [= <-]. destruct (IH k eq_refl) as (Hs & Hl & Hj). simpl.
      split; [rewrite append_cons; by rewrite <- Hs | split; [by rewrite Hl|]].
      intros [|j] Hlt; simpl; [done | apply Hj; lia].
Qed.

Lemma indexOf_None (p s : string) :
  indexOf p s = None -> forall j, startsWith p (slice_from j s) = false.
Proof.
  induction s as [|c s IH]; simpl.
  - destruct (startsWith p "") eqn:E; [done|]. intros _ [|j]; done.
  - destruct (startsWith p (String c s)) eqn:E; [done|].
    destruct (indexOf p s) eqn:Ek; simpl; [done|].
    intros _ [|j]; simpl; [done | by apply IH].
Qed.

(** [indexOf] answers [-1] only when the pattern occurs nowhere. *)
Lemma indexOf_None_not_includes (p s : string) :
  indexOf p s = None -> ~ includes p s.
Proof.
  intros H (a & b & ->).
  pose proof (indexOf_None _ _ H (String.length a)) as Hn.
  by rewrite slice_from_append, startsWith_append in Hn.
Qed.

Lemma includes_splice (a b frag : string) :
  includes frag (a +:+ frag +:+ b).
Proof. by exists a, b. Qed.

Lemma list_ascii_append (a b : string) :
  list_ascii_of_string (a +:+ b)
  = (list_ascii_of_string a ++ list_ascii_of_string b)%list.
Proof.
  induction a as [|x a IH]; [done|]. rewrite append_cons. simpl.
  by rewrite IH.
Qed.


End StringFacts.

Section PathFacts.

Import Path.


Lemma keep_while_Forall (f : ascii -> bool) (l : list ascii) :
  Forall (fun c => f c = true) (keep_while f l).
Proof.
  induction l as [|c l IH]; simpl; [constructor|].
  destruct (f c) eqn:E; by constructor.
Qed.


Lemma keep_while_app_stop (f : ascii -> bool) (l : list ascii) c rest :
  Forall (fun c => f c = true) l -> f c = false ->
  keep_while f (l ++ c :: rest) = l.
Proof.
  induction 1 as [|d l Hd _ IH]; simpl; intros Hc.
  - by rewrite Hc.
  - by rewrite Hd, IH.
Qed.

(** The base name has no separator in it: the directory is gone. *)
Lemma last_component_no_sep (p : string) :
  Forall (fun c => is_sep c = false) (last_component p).
Proof.
  unfold last_component. apply Forall_rev.
  eapply Forall_impl; [apply keep_while_Forall|].
  intros c Hc. simpl in Hc. by destruct (is_sep c).
Qed.

Lemma basename_no_separator (p : string) :
  ~ JsString.includes "/" (basename p).
Proof.
  intros (a & b & Hab). unfold basename in Hab.
  pose proof (last_component_no_sep p) as Hall.
  apply (f_equal list_ascii_of_string) in Hab.
  rewrite list_ascii_of_string_of_list_ascii, !list_ascii_append in Hab.
  rewrite Hab in Hall. apply Forall_app in Hall as [_ Hall].
  simpl in Hall. by inversion Hall.
Qed.

(** The base name of [dir/file] is [file]. *)
Lemma basename_strips_directory (dir file : string) :
  file <> "" ->
  Forall (fun c => is_sep c = false) (list_ascii_of_string file) ->
  basename (dir +:+ "/" +:+ file) = file.
Proof.
  intros Hne Hfile. unfold basename, last_component.
  rewrite !list_ascii_append, !rev_app_distr. simpl.
  assert (Hrev : Forall (fun c => is_sep c = false)
                   (rev (list_ascii_of_string file))) by by apply Forall_rev.
  destruct (rev (list_ascii_of_string file)) as [|c l] eqn:E.
  { apply (f_equal (@rev ascii)) in E. rewrite rev_involutive in E. simpl in E.
    apply (f_equal string_of_list_ascii) in E.
    rewrite string_of_list_ascii_of_string in E. done. }
  inversion Hrev as [|? ? Hc Hl]; subst. simpl. rewrite Hc.
  rewrite <- app_assoc. simpl.
  rewrite keep_while_app_stop.
  - rewrite Hc. simpl negb. cbv iota. rewrite <- E, rev_involutive.
    apply string_of_list_ascii_of_string.
  - eapply Forall_impl; [exact Hl|]. intros d Hd. simpl. by rewrite Hd.
  - done.
Qed.


End PathFacts.

(* ===================================================================== *)
(** * The font array written into a property list *)
(* ===================================================================== *)

Section Fragment.

Context {F : Type} (deref : F -> ExpoNativeFontOptions).

Lemma insertionKeys_from (acc : string) (targetFonts : list F) :
  fold_left
    (fun contents font =>
       let name := Path.basename (filePath (deref font)) in
       contents +:+ JsString.NL +:+ indent12 +:+ "<string>" +:+ name
         +:+ "</string>")
    targetFonts acc
  = acc +:+ concat_strings (map (string_entry deref) targetFonts).
Proof.
  revert acc; induction targetFonts as [|font rest IH]; intros acc; simpl.
  - by rewrite append_empty_r.
  - rewrite IH. by rewrite append_assoc.
Qed.

Lemma insertionKeys_entries (targetFonts : list F) :
  insertionKeys deref targetFonts
  = concat_strings (map (string_entry deref) targetFonts).
Proof. unfold insertionKeys. by rewrite insertionKeys_from. Qed.

(** C4.  The fragment inserted for a target is the [UIAppFonts] key
    followed by one array whose elements are, in the order of the
    target's bucket, one [<string>] element per font holding the base
    name of the font's file, which has no directory part.  Patching
    [<dict></dict>] for the fonts [font1.ttf] and [sub/font2.ttf] puts
    the array of [font1.ttf] then [font2.ttf] right after [<dict>]. *)
Theorem plist_fragment_lists_bucket (targetFonts : list F) :
  insertionContents deref targetFonts
  = "<key>UIAppFonts</key>" +:+ JsString.NL +:+
    indent8 +:+ "<array>" +:+ JsString.NL +:+
    indent8 +:+ concat_strings (map (string_entry deref) targetFonts)
      +:+ JsString.NL +:+
    indent8 +:+ "</array>"
  /\ length (map (string_entry deref) targetFonts) = length targetFonts
  /\ (forall i font,
        targetFonts !! i = Some font ->
        map (string_entry deref) targetFonts !! i
        = Some (JsString.NL +:+ indent12 +:+ "<string>"
                  +:+ Path.basename (filePath (deref font)) +:+ "</string>"))
  /\ (forall font,
        ~ JsString.includes "/" (Path.basename (filePath (deref font))))
  /\ (forall dir file,
        file <> "" ->
        Forall (fun c => Path.is_sep c = false) (list_ascii_of_string file) ->
        Path.basename (dir +:+ "/" +:+ file) = file)
  /\ files (snd (updateInfoPlist_target Sample.fontAt [("A", [0; 1])] "A"
                   (Sample.with_plist "<dict></dict>")))
       !! "/app/ios/A/Info.plist"
     = Some ("<dict><key>UIAppFonts</key>" +:+ JsString.NL +:+
             "        <array>" +:+ JsString.NL +:+
             "        " +:+ JsString.NL +:+
             "            <string>font1.ttf</string>" +:+ JsString.NL +:+
             "            <string>font2.ttf</string>" +:+ JsString.NL +:+
             "        </array></dict>").
Proof.
  split; [|split; [|split; [|split; [|split]]]].
  - unfold insertionContents. by rewrite insertionKeys_entries.
  - apply length_map.
  - intros i font Hi. rewrite list_lookup_fmap, Hi. reflexivity.
  - intros font. apply basename_no_separator.
  - apply basename_strips_directory.
  - vm_compute. reflexivity.
Qed.

End Fragment.

(** A bucket of two fonts gives a fragment with their two file names. *)
Lemma plist_fragment_lists_bucket_witness :
  Path.basename ("sub" +:+ "/" +:+ "font2.ttf") = "font2.ttf"
  /\ length (map (string_entry Sample.fontAt) [0; 1]) = 2.
Proof.
  destruct (plist_fragment_lists_bucket Sample.fontAt [0; 1])
    as (_ & Hlen & _ & _ & Hbase & _).
  split; [|exact Hlen].
  apply Hbase; [discriminate | repeat constructor].
Defined.

(* ===================================================================== *)
(** * Display names *)
(* ===================================================================== *)

Lemma indexOf_empty (s : string) : JsString.indexOf "" s = Some 0.
Proof. by destruct s. Qed.








Example getFontName_first_occurrence :
  getFontName {| filePath := "fonts/Roboto.ttf.subset.ttf"; name := None;
                 platform := None; targets := Some ["A"] |}
  = "Roboto.subset.ttf".
Proof. reflexivity. Qed.

Example getFontName_empty_name :
  getFontName {| filePath := "fonts/Inter-Bold.ttf"; name := Some "";
                 platform := None; targets := Some ["A"] |}
  = "Inter-Bold".
Proof. reflexivity. Qed.

(* ===================================================================== *)
(** * Grouping by target *)
(* ===================================================================== *)

Section ObjectFacts.

Context {V : Type}.

Lemma get_set_eq (k : string) (v : V) (o : JsObject.t V) :
  JsObject.get k (JsObject.set k v o) = Some v.
Proof.
  induction o as [|[k' v'] o IH]; simpl.
  - by rewrite String.eqb_refl.
  - destruct (String.eqb k k') eqn:E; simpl.
    + by rewrite String.eqb_refl.
    + by rewrite E.
Qed.

Lemma get_set_ne (k k' : string) (v : V) (o : JsObject.t V) :
  k <> k' -> JsObject.get k' (JsObject.set k v o) = JsObject.get k' o.
Proof.
  intros Hne. induction o as [|[k0 v0] o IH]; simpl.
  - destruct (String.eqb k' k) eqn:E; [|done].
    apply String.eqb_eq in E. congruence.
  - destruct (String.eqb k k0) eqn:E; simpl.
    + apply String.eqb_eq in E as ->.
      destruct (String.eqb k' k0) eqn:E'; [|done].
      apply String.eqb_eq in E'. congruence.
    + destruct (String.eqb k' k0); [done | apply IH].
Qed.

Lemma get_Some_In (k : string) (v : V) (o : JsObject.t V) :
  JsObject.get k o = Some v -> In k (map fst o).
Proof.
  induction o as [|[k' v'] o IH]; simpl; [done|].
  destruct (String.eqb k k') eqn:E.
  - apply String.eqb_eq in E. by left.
  - intros H. right. by apply IH.
Qed.

Lemma In_get_Some (k : string) (o : JsObject.t V) :
  In k (map fst o) -> exists v, JsObject.get k o = Some v.
Proof.
  induction o as [|[k' v'] o IH]; simpl; [done|].
  destruct (String.eqb k k') eqn:E; [by eexists|].
  intros [->|Hin]; [by rewrite String.eqb_refl in E | by apply IH].
Qed.

(** [Object.keys] lists exactly the own keys. *)
Lemma keys_In (k : string) (o : JsObject.t V) :
  In k (JsObject.keys o) <-> In k (map fst o).
Proof.
  unfold JsObject.keys. rewrite in_app_iff.
  rewrite <- !list_elem_of_In.
  rewrite merge_sort_Permutation.
  rewrite !list_elem_of_filter.
  destruct (JsObject.is_array_index k); intuition congruence.
Qed.

Lemma set_keys (k : string) (v : V) (o : JsObject.t V) :
  map fst (JsObject.set k v o)
  = if JsObject.get k o is Some _ then map fst o else (map fst o ++ [k])%list.
Proof.
  induction o as [|[k' v'] o IH]; simpl; [done|].
  destruct (String.eqb k k') eqn:E; simpl.
  - by apply String.eqb_eq in E as ->.
  - rewrite IH. by destruct (JsObject.get k o).
Qed.

Lemma get_None_not_In (k : string) (o : JsObject.t V) :
  JsObject.get k o = None -> ~ In k (map fst o).
Proof.
  intros Hnone Hin. apply In_get_Some in Hin as [v Hv]. congruence.
Qed.

End ObjectFacts.

Section Grouping.

Context {F : Type} (deref : F -> ExpoNativeFontOptions).

Lemma get_of_bucket (g : FontsGrouped F) (t : string) :
  no_empty_bucket g ->
  JsObject.get t g = match bucket g t with [] => None | b => Some b end.
Proof.
  intros Hne. unfold bucket. specialize (Hne t).
  destruct (JsObject.get t g) as [[|x b]|]; simpl; congruence.
Qed.

Lemma groupByTarget_targets_bucket (font : F) (ts : list string)
    (g g' : FontsGrouped F) :
  groupByTarget_targets font ts g = Ret g' ->
  no_empty_bucket g ->
  no_empty_bucket g'
  /\ forall t, bucket g' t = (bucket g t ++ mentions font ts t)%list.
Proof.
  revert g; induction ts as [|t0 ts IH]; intros g; simpl.
  - intros [= <-] Hne. split; [done|]. intros t. by rewrite app_nil_r.
  - unfold JsObject.read.
    set (b0 := JsObject.get t0 g).
    assert (Hstep : forall b : list F,
               (b0 = Some b \/ (b0 = None /\ b = [])) ->
               groupByTarget_targets font ts
                 (JsObject.set t0 (b ++ [font])%list g) = Ret g' ->
               no_empty_bucket g ->
               no_empty_bucket g'
               /\ forall t, bucket g' t
                            = (bucket g t
                               ++ (if String.eqb t0 t then [font] else [])
                               ++ mentions font ts t)%list).
    { intros b Hb Hrun Hne.
      apply IH in Hrun as [Hne' Hb'].
      - split; [done|]. intros t. rewrite Hb'. rewrite app_assoc. f_equal.
        unfold bucket. destruct (String.eqb t0 t) eqn:E.
        + apply String.eqb_eq in E as <-. rewrite get_set_eq. simpl.
          fold b0. by destruct Hb as [-> | [-> ->]].
        + rewrite get_set_ne, app_nil_r; [done|].
          intros ->. by rewrite String.eqb_refl in E.
      - intros t. destruct (String.eqb t0 t) eqn:E.
        + apply String.eqb_eq in E as <-. rewrite get_set_eq.
          intros [= Hnil]. by destruct b.
        + rewrite get_set_ne; [apply Hne|].
          intros ->. by rewrite String.eqb_refl in E. }
    destruct b0 as [b|] eqn:Eb.
    + intros Hrun Hne. apply (Hstep b); auto.
    + destruct (JsObject.inherited t0); [done|].
      intros Hrun Hne. apply (Hstep []); auto.
Qed.

Lemma groupByTarget_fonts_bucket (fonts : list F) (g g' : FontsGrouped F) :
  groupByTarget_fonts deref fonts g = Ret g' ->
  no_empty_bucket g ->
  no_empty_bucket g'
  /\ forall t, bucket g' t = (bucket g t ++ bucket_of deref t fonts)%list.
Proof.
  revert g; induction fonts as [|font rest IH]; intros g; simpl.
  - intros [= <-] Hne. split; [done|]. intros t. by rewrite app_nil_r.
  - destruct (targets (deref font)) as [ts|] eqn:Ets; [|done].
    destruct (groupByTarget_targets font ts g) as [g1|e] eqn:E1; [|done].
    intros Hrun Hne.
    apply groupByTarget_targets_bucket in E1 as [Hne1 Hb1]; [|done].
    apply IH in Hrun as [Hne' Hb']; [|done].
    split; [done|]. intros t. rewrite Hb', Hb1. simpl.
    by rewrite <- app_assoc.
Qed.

Lemma groupByTarget_fonts_app (pre rest : list F) (g : FontsGrouped F) :
  groupByTarget_fonts deref (pre ++ rest) g
  = match groupByTarget_fonts deref pre g with
    | Ret g' => groupByTarget_fonts deref rest g'
    | Throw e => Throw e
    end.
Proof.
  revert g; induction pre as [|font pre IH]; intros g; simpl; [done|].
  destruct (targets (deref font)); [|done].
  destruct (groupByTarget_targets font l g); [apply IH | done].
Qed.

Lemma mentions_In (font : F) (ts : list string) (t : string) :
  In t ts -> In font (mentions font ts t).
Proof.
  induction ts as [|t0 ts IH]; simpl; [done|].
  intros [->|Hin]; apply in_or_app.
  - left. rewrite String.eqb_refl. by left.
  - right. by apply IH.
Qed.

Lemma mentions_elem (font x : F) (ts : list string) (t : string) :
  In x (mentions font ts t) -> x = font.
Proof.
  induction ts as [|t0 ts IH]; simpl; [done|].
  intros [Hin|Hin]%in_app_or; [|by apply IH].
  destruct (String.eqb t0 t); simpl in Hin; by intuition.
Qed.

Lemma mentions_NoDup (font : F) (ts : list string) (t : string) :
  NoDup ts ->
  mentions font ts t = if existsb (String.eqb t) ts then [font] else [].
Proof.
  induction 1 as [|t0 ts Hnotin Hnd IH]; simpl; [done|].
  rewrite IH. rewrite (String.eqb_sym t t0).
  destruct (String.eqb t0 t) eqn:E; simpl; [|done].
  apply String.eqb_eq in E as ->.
  destruct (existsb (String.eqb t) ts) eqn:Ex; [|done].
  apply existsb_exists in Ex as (x & Hx & Hxt).
  apply String.eqb_eq in Hxt as <-. by apply list_elem_of_In in Hx.
Qed.

(** Whenever grouping returns, its buckets are the input references
    naming each target, in declaration order. *)
Lemma groupByTarget_run_buckets (fonts : list F) (grouped : FontsGrouped F) :
  groupByTarget deref fonts = Ret grouped ->
  (forall t, JsObject.get t grouped
             = match bucket_of deref t fonts with
               | [] => None
               | b => Some b
               end)
  /\ (forall t font ts,
        In font fonts -> targets (deref font) = Some ts -> In t ts ->
        exists b, JsObject.get t grouped = Some b /\ In font b)
  /\ (forall t b font,
        JsObject.get t grouped = Some b -> In font b -> In font fonts)
  /\ ((forall font ts,
         In font fonts -> targets (deref font) = Some ts -> NoDup ts) ->
      forall t b,
        JsObject.get t grouped = Some b -> b = fonts_naming deref t fonts).
Proof.
  intros Hrun. unfold groupByTarget in Hrun.
  apply groupByTarget_fonts_bucket in Hrun as [Hne Hb]; [|done].
  assert (Hget : forall t, JsObject.get t grouped
                           = match bucket_of deref t fonts with
                             | [] => None
                             | b => Some b
                             end).
  { intros t. rewrite (get_of_bucket _ _ Hne). by rewrite Hb. }
  assert (Hin : forall t font ts,
             In font fonts -> targets (deref font) = Some ts -> In t ts ->
             In font (bucket_of deref t fonts)).
  { intros t font ts Hf Hts Ht. unfold bucket_of.
    apply in_flat_map. exists font. split; [done|]. rewrite Hts. simpl.
    by apply mentions_In. }
  split; [exact Hget|]. split; [|split].
  - intros t font ts Hf Hts Ht. specialize (Hin _ _ _ Hf Hts Ht).
    rewrite Hget. destruct (bucket_of deref t fonts); [done|]. by eexists.
  - intros t b font. rewrite Hget.
    destruct (bucket_of deref t fonts) as [|x l] eqn:E; [done|].
    intros [= <-] Hfont. rewrite <- E in Hfont. unfold bucket_of in Hfont.
    apply in_flat_map in Hfont as (f0 & Hf0 & Hm).
    apply mentions_elem in Hm. by subst.
  - intros Hnd t b. rewrite Hget.
    assert (Heq : bucket_of deref t fonts = fonts_naming deref t fonts).
    { clear -Hnd. unfold bucket_of, fonts_naming.
      induction fonts as [|font rest IH]; simpl; [done|].
      rewrite IH by (intros f ts Hf; apply Hnd; by right).
      rewrite mentions_NoDup.
      - by destruct (existsb _ _).
      - destruct (targets (deref font)) as [ts|] eqn:Ets; simpl.
        + eapply Hnd; [by left | done].
        + constructor. }
    rewrite Heq. destruct (fonts_naming deref t fonts); [done|].
    by intros [= <-].
Qed.







(** A font without [targets] stops the grouping at that font. *)
Lemma groupByTarget_missing_targets (pre post : list F) (font : F)
    (g : FontsGrouped F) :
  groupByTarget deref pre = Ret g ->
  targets (deref font) = None ->
  groupByTarget deref (pre ++ font :: post)
  = Throw (Error (targets_required (deref font))).
Proof.
  unfold groupByTarget. intros Hpre Hnone.
  rewrite groupByTarget_fonts_app, Hpre. simpl. by rewrite Hnone.
Qed.

End Grouping.



Example groupByTarget_inherited_target :
  groupByTarget Sample.fontAt [0; 6]
  = Throw (TypeError "groupedFonts[target] is not iterable").
Proof. reflexivity. Qed.

(* ===================================================================== *)
(** * A font without targets *)
(* ===================================================================== *)

Section MissingTargets.

Context {F : Type} (deref : F -> ExpoNativeFontOptions).
Context (addResourceFileToGroup : Capability).

(** When grouping throws, the pipeline ends there and has touched
    nothing. *)
Lemma inject_grouping_throws (options : ExpoNativeFontsOptions F)
    (e : Exn) (w : World) :
  groupByTarget deref (getIOSFonts deref options) = Throw e ->
  injectExpoNativeFontsIOS deref addResourceFileToGroup options w
  = (Throw e, w).
Proof.
  intros Hthrow. unfold injectExpoNativeFontsIOS, bind, lift.
  by rewrite Hthrow.
Qed.

(** C2, as the code has it.  When a font selected for iOS has no
    [targets] property, and the fonts declared before it group without
    error, grouping fails with the error [Targets is required for iOS
    font ...] that names the font by its [name], or by its [filePath]
    when [name] is absent or empty; the pipeline stops with that error
    and leaves the file system, the project objects, [config] and the
    journal of calls as they were.  A font whose [targets] is the empty
    list is passed over: grouping goes on with the buckets as they
    were. *)
Theorem groupByTarget_requires_targets (options : ExpoNativeFontsOptions F)
    (pre post : list F) (font : F) (g : FontsGrouped F) (w : World) :
  getIOSFonts deref options = (pre ++ font :: post)%list ->
  groupByTarget deref pre = Ret g ->
  targets (deref font) = None ->
  groupByTarget deref (getIOSFonts deref options)
    = Throw (Error (targets_required (deref font)))
  /\ (forall n, name (deref font) = Some n -> n <> "" ->
        targets_required (deref font)
        = "Targets is required for iOS font " +:+ n)
  /\ (name (deref font) = None \/ name (deref font) = Some "" ->
        targets_required (deref font)
        = "Targets is required for iOS font " +:+ filePath (deref font))
  /\ injectExpoNativeFontsIOS deref addResourceFileToGroup options w
     = (Throw (Error (targets_required (deref font))), w)
  /\ (forall (empty : F) rest g',
        targets (deref empty) = Some [] ->
        groupByTarget_fonts deref (empty :: rest) g'
        = groupByTarget_fonts deref rest g').
Proof.
  intros Hsel Hpre Hnone.
  assert (Hthrow : groupByTarget deref (getIOSFonts deref options)
                   = Throw (Error (targets_required (deref font)))).
  { rewrite Hsel. by eapply groupByTarget_missing_targets. }
  split; [exact Hthrow|]. split; [|split].
  - intros n Hn Hne. unfold targets_required, or_else, truthy. rewrite Hn.
    destruct (String.eqb n "") eqn:E; [by apply String.eqb_eq in E | done].
  - intros [Hn | Hn]; unfold targets_required, or_else, truthy;
      by rewrite Hn.
  - split; [by apply inject_grouping_throws|].
    intros empty rest g' Hempty. simpl. by rewrite Hempty.
Qed.

End MissingTargets.

Lemma groupByTarget_requires_targets_witness :
  injectExpoNativeFontsIOS Sample.fontAt Sample.addInPlace
    (Sample.options [0; 2; 4; 1]) Sample.world0
  = (Throw (Error "Targets is required for iOS font untargeted.ttf"),
     Sample.world0).
Proof.
  apply (groupByTarget_requires_targets Sample.fontAt Sample.addInPlace
           (Sample.options [0; 2; 4; 1]) [0] [1] 4
           [("A", [0]); ("B", [0])] Sample.world0);
    reflexivity.
Defined.

(** C2, as stated, fails for a font whose [targets] is the empty list:
    grouping succeeds and the font lands in no bucket. *)
Lemma groupByTarget_empty_targets_counterexample :
  ~ (forall (fonts : list nat) (font : nat),
       In font fonts ->
       targets (Sample.fontAt font) = None
       \/ targets (Sample.fontAt font) = Some [] ->
       exists message,
         groupByTarget Sample.fontAt fonts = Throw (Error message)).
Proof.
  intros H. destruct (H [3] 3) as [message Hm]; [by left | by right |].
  vm_compute in Hm. discriminate.
Qed.

Example groupByTarget_empty_targets :
  groupByTarget Sample.fontAt (getIOSFonts Sample.fontAt (Sample.options [3]))
  = Ret [].
Proof. reflexivity. Qed.

(* ===================================================================== *)
(** * Patching a property list *)
(* ===================================================================== *)

Lemma slice_to_split (s a b p : string) (i : nat) :
  s = a +:+ p +:+ b -> String.length a = i ->
  JsString.slice_to (i + String.length p) s = a +:+ p.
Proof.
  intros -> <-. rewrite <- length_append, <- append_assoc.
  apply slice_to_append.
Qed.

Lemma slice_from_split (s a b : string) (i : nat) :
  s = a +:+ b -> String.length a = i -> JsString.slice_from i s = b.
Proof. intros -> <-. apply slice_from_append. Qed.

Lemma slice_to_prefix (s a b : string) (i : nat) :
  s = a +:+ b -> String.length a = i -> JsString.slice_to i s = a.
Proof. intros -> <-. apply slice_to_append. Qed.

Section PlistPatch.

Context {F : Type} (deref : F -> ExpoNativeFontOptions).

(** C5.  For a target whose [Info.plist] exists with text [contents]:
    when [<dict>] occurs, the fragment is spliced in right after its
    first occurrence; when [<dict>] does not occur but [</plist>] does,
    the fragment is spliced in right before the first [</plist>]; in both
    cases the result is written to the file in one write.  When neither
    occurs, the patch throws the error that names the file, and the file
    system is as it was, with no write attempted. *)
Theorem updateInfoPlist_insertion_point (grouped : FontsGrouped F)
    (targetName : string) (targetFonts : list F) (w : World)
    (contents : string) :
  let plistFilePath := plistFilePath_of (projectRoot w) targetName in
  let fragment := insertionContents deref targetFonts in
  let result := updateInfoPlist_target deref grouped targetName w in
  JsObject.get targetName grouped = Some targetFonts ->
  files w !! plistFilePath = Some contents ->
  Fs.is_dir w plistFilePath = false ->
  match JsString.indexOf "<dict>" contents,
        JsString.indexOf "</plist>" contents with
  | Some i, _ =>
      exists before after,
        let patched := before +:+ "<dict>" +:+ fragment +:+ after in
        contents = before +:+ "<dict>" +:+ after
        /\ String.length before = i
        /\ (forall j, j < i ->
              JsString.startsWith "<dict>" (JsString.slice_from j contents)
              = false)
        /\ fst result = Ret tt
        /\ files (snd result) = <[plistFilePath := patched]> (files w)
        /\ calls (snd result)
           = (calls w ++ [writeFileSync_call plistFilePath patched])%list
  | None, Some i =>
      ~ JsString.includes "<dict>" contents
      /\ exists before after,
        let patched := before +:+ fragment +:+ "</plist>" +:+ after in
        contents = before +:+ "</plist>" +:+ after
        /\ String.length before = i
        /\ (forall j, j < i ->
              JsString.startsWith "</plist>" (JsString.slice_from j contents)
              = false)
        /\ fst result = Ret tt
        /\ files (snd result) = <[plistFilePath := patched]> (files w)
        /\ calls (snd result)
           = (calls w ++ [writeFileSync_call plistFilePath patched])%list
  | None, None =>
      ~ JsString.includes "<dict>" contents
      /\ ~ JsString.includes "</plist>" contents
      /\ fst result = Throw (Error (no_dict_or_plist_tag plistFilePath))
      /\ JsString.includes plistFilePath (no_dict_or_plist_tag plistFilePath)
      /\ files (snd result) = files w
      /\ dirs (snd result) = dirs w
      /\ calls (snd result) = calls w
  end.
Proof.
  intros plistFilePath fragment result Hget Hfile Hdir.
  subst plistFilePath fragment result.
  unfold updateInfoPlist_target. rewrite Hget.
  unfold Fs.is_dir in Hdir.
  run_monad. rewrite !Hfile. run_monad. rewrite ?Hfile, ?Hdir.
  destruct (JsString.indexOf "<dict>" contents) as [i|] eqn:Edict.
  - run_monad. rewrite ?Hfile, ?Hdir. simpl.
    destruct (indexOf_Some _ _ _ Edict) as (Hsplit & Hlen & Hfirst).
    exists (JsString.slice_to i contents),
           (JsString.slice_from (i + String.length "<dict>") contents).
    split; [exact Hsplit|]. split; [exact Hlen|]. split; [exact Hfirst|].
    split; [done|].
    change (i + 6) with (i + String.length "<dict>").
    rewrite (slice_to_split _ _ _ _ _ Hsplit Hlen).
    by rewrite append_assoc.
  - destruct (JsString.indexOf "</plist>" contents) as [i|] eqn:Eplist.
    + run_monad. rewrite ?Hfile, ?Hdir. simpl.
      split; [by apply indexOf_None_not_includes|].
      destruct (indexOf_Some _ _ _ Eplist) as (Hsplit & Hlen & Hfirst).
      exists (JsString.slice_to i contents),
             (JsString.slice_from (i + String.length "</plist>") contents).
      split; [exact Hsplit|]. split; [exact Hlen|]. split; [exact Hfirst|].
      split; [done|].
      by rewrite (slice_from_split _ (JsString.slice_to i contents) _ _
                    Hsplit Hlen).
    + run_monad.
      split; [by apply indexOf_None_not_includes|].
      split; [by apply indexOf_None_not_includes|].
      split; [done|]. split; [|done].
      unfold no_dict_or_plist_tag. by eexists _, _.
Qed.

End PlistPatch.

Lemma updateInfoPlist_insertion_point_witness :
  exists before after,
    "<plist version='1.0'></plist>" = before +:+ "</plist>" +:+ after
    /\ files (snd (updateInfoPlist_target Sample.fontAt [("A", [0])] "A"
                     (Sample.with_plist "<plist version='1.0'></plist>")))
       = <["/app/ios/A/Info.plist" :=
             before +:+ insertionContents Sample.fontAt [0]
               +:+ "</plist>" +:+ after]>
           (files (Sample.with_plist "<plist version='1.0'></plist>")).
Proof.
  destruct (updateInfoPlist_insertion_point Sample.fontAt [("A", [0])] "A"
              [0] (Sample.with_plist "<plist version='1.0'></plist>")
              "<plist version='1.0'></plist>" eq_refl eq_refl eq_refl)
    as (_ & before & after & Hsplit & _ & _ & _ & Hfiles & _).
  exists before, after. split; [exact Hsplit | exact Hfiles].
Defined.

(* ===================================================================== *)
(** * The path of a property list *)
(* ===================================================================== *)

Section PlistPath.

Import Path.
















End PlistPath.

(* ===================================================================== *)
(** * A target without a property list *)
(* ===================================================================== *)



Section XmlFacts.

Import Xml.



End XmlFacts.

Section FontArray.

Context {F : Type} (deref : F -> ExpoNativeFontOptions).




End FontArray.

Section MissingPlist.

Context {F : Type} (deref : F -> ExpoNativeFontOptions).

End MissingPlist.



(* ===================================================================== *)
(** * Resolving a target *)
(* ===================================================================== *)

Section TargetResolution.

Context {F : Type} (deref : F -> ExpoNativeFontOptions).
Context (addResourceFileToGroup : Capability).

Lemma scan_first_match (before after : list (string * PBXNativeTarget))
    (u : string) (t : PBXNativeTarget) (name : string) :
  pbx_name t = Some name ->
  Forall (fun entry => pbx_name entry.2 <> Some name) before ->
  getPBXTargetByName_scan (before ++ (u, t) :: after) name
  = {| uuid := Some u; target := Some t |}.
Proof.
  intros Ht. induction 1 as [|[u' t'] before Hne _ IH]; simpl.
  - by rewrite Ht, String.eqb_refl.
  - simpl in Hne. destruct (pbx_name t') as [n|]; [|exact IH].
    destruct (String.eqb n name) eqn:E; [|exact IH].
    apply String.eqb_eq in E. congruence.
Qed.

Lemma scan_no_match (section : list (string * PBXNativeTarget))
    (name : string) :
  Forall (fun entry => pbx_name entry.2 <> Some name) section ->
  getPBXTargetByName_scan section name = {| uuid := None; target := None |}.
Proof.
  induction 1 as [|[u' t'] section Hne _ IH]; simpl; [done|].
  simpl in Hne. destruct (pbx_name t') as [n|]; [|exact IH].
  destruct (String.eqb n name) eqn:E; [|exact IH].
  apply String.eqb_eq in E. congruence.
Qed.

(** [getPBXTargetByName] looks at the section of the project once and
    returns what the scan finds. *)
Lemma getPBXTargetByName_run (project : nat) (name : string) (w : World)
    (obj : XcodeProject) :
  heap w !! project = Some obj ->
  getPBXTargetByName project name w
  = (Ret (getPBXTargetByName_scan (pbxNativeTargetSection obj) name),
     {| files := files w; dirs := dirs w; heap := heap w;
        projectRoot := projectRoot w; modResults := modResults w;
        console := console w;
        calls := (calls w ++ [pbxNativeTargetSection_call project])%list |}).
Proof.
  intros Hobj. unfold getPBXTargetByName. run_monad. by rewrite Hobj.
Qed.

End TargetResolution.

(* ===================================================================== *)
(** * Registering the fonts of a target *)
(* ===================================================================== *)

Section Registration.

Context (addResourceFileToGroup : Capability).

Lemma for_of_cons {A} (x : A) (l : list A) (body : A -> M unit) (w : World) :
  for_of (x :: l) body w
  = match body x w with
    | (Ret _, w') => for_of l body w'
    | (Throw e, w') => (Throw e, w')
    end.
Proof. reflexivity. Qed.

Lemma addFontToXcodeProj_file_run (project : nat) (targetUuid filePath : string)
    (w : World) :
  let args := {| filepath := Path.join ["Fonts"; filePath];
                 groupName := "Resources";
                 project := project;
                 isBuildFile := true;
                 verbose := true;
                 targetUuid := targetUuid |} in
  let logged :=
    (console w ++ [LogString ("Adding resource file " +:+ filePath)])%list in
  addFontToXcodeProj_file addResourceFileToGroup project targetUuid filePath w
  = match addResourceFileToGroup args (heap w) with
    | (Ret p, h') =>
        (Ret tt,
         {| files := files w; dirs := dirs w; heap := h';
            projectRoot := projectRoot w; modResults := p;
            console := logged;
            calls := (calls w ++ [addResourceFileToGroup_call args])%list |})
    | (Throw e, h') =>
        (Throw e,
         {| files := files w; dirs := dirs w; heap := h';
            projectRoot := projectRoot w; modResults := modResults w;
            console := logged;
            calls := (calls w ++ [addResourceFileToGroup_call args])%list |})
    end.
Proof.
  intros args logged. unfold addFontToXcodeProj_file, call_addResourceFileToGroup.
  run_monad. fold args. by destruct (addResourceFileToGroup args (heap w))
    as [[p|e] h'].
Qed.

(** Whatever the capability does, every call of the loop is given the
    project reference read before the loop. *)
Lemma register_files_calls (project : nat) (targetUuid : string)
    (fontFiles : list string) (w : World) (o : Outcome unit) (w' : World) :
  for_of fontFiles (addFontToXcodeProj_file addResourceFileToGroup project targetUuid) w = (o, w') ->
  exists done_,
    (o = Ret tt -> done_ = fontFiles)
    /\ (exists rest, fontFiles = done_ ++ rest)%list
    /\ calls w'
       = (calls w
          ++ map (fun filePath =>
                    addResourceFileToGroup_call
                      {| filepath := Path.join ["Fonts"; filePath];
                         groupName := "Resources";
                         project := project;
                         isBuildFile := true;
                         verbose := true;
                         targetUuid := targetUuid |}) done_)%list.
Proof.
  revert w; induction fontFiles as [|filePath rest IH]; intros w.
  - intros [= <- <-]. exists []. simpl. rewrite app_nil_r.
    split; [done|]. split; [by exists []|done].
  - rewrite for_of_cons, addFontToXcodeProj_file_run.
    destruct (addResourceFileToGroup _ (heap w)) as [[p|e] h'] eqn:Ecall.
    + intros Hrun. apply IH in Hrun as (done_ & Hall & [rest' Hrest] & Hcalls).
      exists (filePath :: done_). simpl in *.
      split; [intros Hret; by rewrite (Hall Hret)|].
      split; [exists rest'; by rewrite Hrest|].
      rewrite Hcalls. by rewrite <- app_assoc.
    + intros [= <- <-]. exists [filePath]. simpl. split; [done|].
      split; [by exists rest|done].
Qed.


End Registration.

Section RegistrationOfTarget.

Context {F : Type} (deref : F -> ExpoNativeFontOptions).
Context (addResourceFileToGroup : Capability).

(** [addFontToXcodeProj] for a target the scan resolves: the section is
    consulted once, then the loop runs from the project read first. *)
Lemma addFontToXcodeProj_resolved (options : ExpoNativeFontsOptions F)
    (targetName : string) (fonts : list F) (w : World)
    (obj : XcodeProject) (u : string) (t : PBXNativeTarget) :
  heap w !! modResults w = Some obj ->
  getPBXTargetByName_scan (pbxNativeTargetSection obj) targetName
    = {| uuid := Some u; target := Some t |} ->
  u <> "" ->
  let fontFiles := map (fun font => filePath (deref font)) fonts in
  let w1 :=
    {| files := files w; dirs := dirs w; heap := heap w;
       projectRoot := projectRoot w; modResults := modResults w;
       console :=
         (console w
          ++ [LogString ("Adding fonts to target " +:+ targetName);
              LogString "Font files:"; LogArray fontFiles;
              LogString ("Searching for target " +:+ targetName);
              LogString ("Target UUID: " +:+ u)])%list;
       calls := (calls w ++ [pbxNativeTargetSection_call (modResults w)])%list
    |} in
  addFontToXcodeProj deref addResourceFileToGroup options targetName fonts w
  = match for_of fontFiles
            (addFontToXcodeProj_file addResourceFileToGroup (modResults w) u)
            w1 with
    | (Ret _, w2) =>
        console_log (LogString "Resource files copied successfully.") w2
    | (Throw e, w2) => (Throw e, w2)
    end.
Proof.
  intros Hobj Hscan Hu fontFiles w1.
  unfold addFontToXcodeProj, getPBXTargetByName. run_monad.
  rewrite Hobj. run_monad. rewrite Hscan. simpl.
  destruct (String.eqb u "") eqn:E; [by apply String.eqb_eq in E|].
  run_monad. rewrite <- !app_assoc. simpl. fold fontFiles. fold w1.
  by destruct (for_of fontFiles _ w1) as [[[]|e] w2].
Qed.

(** Every registration call made for a target is given the project
    reference that [config.modResults] held when [addFontToXcodeProj]
    was entered, whatever the earlier calls returned. *)
Lemma addFontToXcodeProj_passes_first_project
    (options : ExpoNativeFontsOptions F) (targetName : string)
    (fonts : list F) (w : World) (obj : XcodeProject) (u : string)
    (t : PBXNativeTarget) :
  heap w !! modResults w = Some obj ->
  getPBXTargetByName_scan (pbxNativeTargetSection obj) targetName
    = {| uuid := Some u; target := Some t |} ->
  u <> "" ->
  let result :=
    addFontToXcodeProj deref addResourceFileToGroup options targetName
      fonts w in
  exists done_,
    (fst result = Ret tt -> done_ = map (fun font => filePath (deref font)) fonts)
    /\ calls (snd result)
       = (calls w
          ++ pbxNativeTargetSection_call (modResults w)
          :: map (fun filePath =>
                    addResourceFileToGroup_call
                      {| filepath := Path.join ["Fonts"; filePath];
                         groupName := "Resources";
                         project := modResults w;
                         isBuildFile := true;
                         verbose := true;
                         targetUuid := u |}) done_)%list.
Proof.
  intros Hobj Hscan Hu result. subst result.
  rewrite (addFontToXcodeProj_resolved _ _ _ _ _ _ _ Hobj Hscan Hu).
  match goal with
  | |- context [for_of ?l ?body ?w1] =>
      destruct (for_of l body w1) as [o w2] eqn:Hloop
  end.
  apply register_files_calls in Hloop as (done_ & Hall & _ & Hcalls).
  exists done_. simpl in Hcalls.
  destruct o as [[]|e]; simpl.
  - split; [auto|]. rewrite Hcalls. by rewrite <- app_assoc.
  - split; [done|]. rewrite Hcalls. by rewrite <- app_assoc.
Qed.


End RegistrationOfTarget.

Section ResolvedTarget.

Context {F : Type} (deref : F -> ExpoNativeFontOptions).
Context (addResourceFileToGroup : Capability).

(** C6.  Resolving a target name looks once at the native-target
    section of the project and returns the first entry, in the order the
    section is visited, whose [name] is exactly the target name, and
    nothing when no entry has that name.  With an entry found,
    [addFontToXcodeProj] gives its key to every registration as the
    target; with none, it throws the error that names the target, after
    the one look at the section and without any call of the registration
    capability: the project objects, [config] and the file system are as
    they were. *)
Theorem unresolved_target_registers_nothing :
  (forall project name (w : World) (obj : XcodeProject) before after u t,
     heap w !! project = Some obj ->
     pbxNativeTargetSection obj = (before ++ (u, t) :: after)%list ->
     pbx_name t = Some name ->
     Forall (fun entry => pbx_name entry.2 <> Some name) before ->
     fst (getPBXTargetByName project name w)
     = Ret {| uuid := Some u; target := Some t |}
     /\ calls (snd (getPBXTargetByName project name w))
        = (calls w ++ [pbxNativeTargetSection_call project])%list)
  /\ (forall project name (w : World) (obj : XcodeProject),
        heap w !! project = Some obj ->
        Forall (fun entry => pbx_name entry.2 <> Some name)
               (pbxNativeTargetSection obj) ->
        fst (getPBXTargetByName project name w)
        = Ret {| uuid := None; target := None |})
  /\ (forall (options : ExpoNativeFontsOptions F) targetName
             (fonts : list F) (w : World) (obj : XcodeProject)
             before after u t,
        let result :=
          addFontToXcodeProj deref addResourceFileToGroup options
            targetName fonts w in
        heap w !! modResults w = Some obj ->
        pbxNativeTargetSection obj = (before ++ (u, t) :: after)%list ->
        pbx_name t = Some targetName ->
        Forall (fun entry => pbx_name entry.2 <> Some targetName) before ->
        u <> "" ->
        exists done_,
          (fst result = Ret tt ->
           done_ = map (fun font => filePath (deref font)) fonts)
          /\ calls (snd result)
             = (calls w
                ++ pbxNativeTargetSection_call (modResults w)
                :: map (fun filePath =>
                          addResourceFileToGroup_call
                            {| filepath := Path.join ["Fonts"; filePath];
                               groupName := "Resources";
                               project := modResults w;
                               isBuildFile := true;
                               verbose := true;
                               targetUuid := u |}) done_)%list)
  /\ (forall (options : ExpoNativeFontsOptions F) targetName
             (fonts : list F) (w : World) (obj : XcodeProject),
        let result :=
          addFontToXcodeProj deref addResourceFileToGroup options
            targetName fonts w in
        heap w !! modResults w = Some obj ->
        Forall (fun entry => pbx_name entry.2 <> Some targetName)
               (pbxNativeTargetSection obj) ->
        fst result
        = Throw (Error ("expo-native-fonts:: cannot find target "
                        +:+ targetName
                        +:+ ". Has the target been set up correctly?"))
        /\ calls (snd result)
           = (calls w ++ [pbxNativeTargetSection_call (modResults w)])%list
        /\ heap (snd result) = heap w
        /\ modResults (snd result) = modResults w
        /\ files (snd result) = files w
        /\ dirs (snd result) = dirs w).
Proof.
  split_and!.
  - intros project name w obj before after u t Hobj Hsection Ht Hbefore.
    rewrite (getPBXTargetByName_run _ _ _ _ Hobj), Hsection. simpl.
    by rewrite (scan_first_match _ _ _ _ _ Ht Hbefore).
  - intros project name w obj Hobj Hnone.
    rewrite (getPBXTargetByName_run _ _ _ _ Hobj). simpl.
    by rewrite (scan_no_match _ _ Hnone).
  - intros options targetName fonts w obj before after u t result
      Hobj Hsection Ht Hbefore Hu.
    apply (addFontToXcodeProj_passes_first_project deref
             addResourceFileToGroup options targetName fonts w obj u t);
      [done | | done].
    rewrite Hsection. by apply scan_first_match.
  - intros options targetName fonts w obj result Hobj Hnone.
    subst result. unfold addFontToXcodeProj, getPBXTargetByName.
    run_monad. rewrite Hobj. run_monad.
    rewrite (scan_no_match _ _ Hnone). simpl. done.
Qed.

End ResolvedTarget.


Lemma unresolved_target_registers_nothing_witness :
  fst (getPBXTargetByName 0 "B" Sample.world0)
  = Ret {| uuid := Some "00E356ED1AD99517003FC87E";
           target := Some {| pbx_name := Some "B" |} |}
  /\ calls (snd (addFontToXcodeProj Sample.fontAt Sample.addInPlace
                   (Sample.options [5]) "Missing" [5] Sample.world0))
     = [pbxNativeTargetSection_call 0].
Proof.
  destruct (unresolved_target_registers_nothing Sample.fontAt
              Sample.addInPlace) as (Hfirst & _ & _ & Hmissing).
  split.
  - apply (Hfirst 0 "B" Sample.world0 Sample.project0
             [("13B07F861A680F5B00A75B9A", {| pbx_name := Some "A" |});
              ("13B07F861A680F5B00A75B9A_comment", {| pbx_name := None |})]
             [("2D02E47A1E0B4A5D006451C7", {| pbx_name := Some "B" |})]);
      [reflexivity | reflexivity | reflexivity
      | repeat constructor; discriminate].
  - apply (Hmissing (Sample.options [5]) "Missing" [5] Sample.world0
             Sample.project0); [reflexivity|].
    repeat constructor; discriminate.
Defined.

(** The comparison of names is exact: a target [b] is not the entry
    named [B]. *)
Example scan_is_case_sensitive :
  getPBXTargetByName_scan (pbxNativeTargetSection Sample.project0) "b"
  = {| uuid := None; target := None |}.
Proof. reflexivity. Qed.

Section Threading.

Context {F : Type} (deref : F -> ExpoNativeFontOptions).
Context (addResourceFileToGroup : Capability).


End Threading.

Lemma addInPlace_returns_its_argument :
  returns_its_argument Sample.addInPlace.
Proof.
  intros args h p h'. unfold Sample.addInPlace.
  destruct (h !! project args); by intros [= <- _].
Qed.


(** Both fonts of target [A] end up registered in the project. *)
Example registration_in_place :
  let w' := snd (addFontToXcodeProj Sample.fontAt Sample.addInPlace
                   (Sample.options [0; 1]) "A" [0; 1] Sample.world0) in
  (map filepath ∘ resourceFiles) <$> heap w' !! modResults w'
  = Some ["Fonts/font1.ttf"; "Fonts/sub/font2.ttf"].
Proof. vm_compute. reflexivity. Qed.

(* ===================================================================== *)
(** * The order of the steps *)
(* ===================================================================== *)

Lemma cannot_find_target_not_plist (plistFilePath targetName : string) :
  Error (no_dict_or_plist_tag plistFilePath)
  <> Error (cannot_find_target targetName).
Proof.
  unfold no_dict_or_plist_tag, cannot_find_target.
  rewrite !append_cons. intros [= H]. 
Qed.

Section PlistStep.

Context {F : Type} (deref : F -> ExpoNativeFontOptions).

Lemma updateInfoPlist_target_round (grouped : FontsGrouped F)
    (targetName : string) (w : World) :
  plist_round deref grouped targetName w
    (fst (updateInfoPlist_target deref grouped targetName w))
    (snd (updateInfoPlist_target deref grouped targetName w)).
Proof.
  unfold updateInfoPlist_target.
  destruct (JsObject.get targetName grouped) as [targetFonts|] eqn:Hget.
  2:{ unfold plist_round. simpl. split_and!; try done. exists [].
      rewrite app_nil_r. split_and!; [done | constructor | done]. }
  run_monad. split_run.
  all: unfold plist_round; simpl.
  all: split_and!; try done.
  all: rewrite <- ?app_assoc; simpl;
    try first [ exists []; split; [by rewrite app_nil_r|]
          | eexists; split; [reflexivity|] ].
  all: try (split; [repeat constructor|]).
  all: try done.
  all: try (intros t; apply cannot_find_target_not_plist).
  all: match goal with
       | |- exists c, In c ?l /\ _ =>
           exists (List.last l (mkdirSync_call "")); simpl;
           split; [tauto|]
       end.
  all: unfold patched_plist_write; eexists _, _.
  all: split_and!; [exact Hget | reflexivity | apply includes_splice].
Qed.

(** The loop of [updateInfoPlist] over a list of targets. *)
Lemma updateInfoPlist_rounds (grouped : FontsGrouped F)
    (targetNames : list string) (w : World) (o : Outcome unit) (w' : World) :
  for_of targetNames (updateInfoPlist_target deref grouped) w = (o, w') ->
  projectRoot w' = projectRoot w
  /\ heap w' = heap w
  /\ modResults w' = modResults w
  /\ exists cs,
       calls w' = (calls w ++ cs)%list
       /\ Forall plist_call cs
       /\ match o with
          | Ret _ =>
              forall targetName, In targetName targetNames ->
                exists c, In c cs
                  /\ patched_plist_write deref (projectRoot w) grouped
                       targetName c
          | Throw e => forall t, e <> Error (cannot_find_target t)
          end.
Proof.
  revert w; induction targetNames as [|targetName rest IH]; intros w.
  - intros [= <- <-]. split_and!; try done. exists [].
    rewrite app_nil_r. split_and!; [done | constructor | done].
  - rewrite for_of_cons.
    pose proof (updateInfoPlist_target_round grouped targetName w) as Hround.
    destruct (updateInfoPlist_target deref grouped targetName w)
      as [[[]|e] w1]; simpl in Hround;
      destruct Hround as (Hroot & Hheap & Hmod & cs & Hcalls & Hall & Hpost).
    + intros Hrun.
      apply IH in Hrun as (Hroot' & Hheap' & Hmod' & cs' & Hcalls' & Hall' & Hpost').
      split_and!; try congruence.
      exists (cs ++ cs')%list. split; [by rewrite Hcalls', Hcalls, app_assoc|].
      split; [by apply Forall_app|].
      destruct o as [[]|e].
      * intros t [<- | Hin].
        -- destruct Hpost as (c & Hc & Hw). exists c.
           split; [apply in_or_app; by left | done].
        -- destruct (Hpost' t Hin) as (c & Hc & Hw). exists c.
           split; [apply in_or_app; by right | by rewrite <- Hroot].
      * exact Hpost'.
    + intros [= <- <-]. split_and!; try done. by exists cs.
Qed.

End PlistStep.

Section CopyStep.

Context {F : Type}.

Lemma copyFontFiles_round (options : ExpoNativeFontsOptions F) (w : World) :
  copy_round options w (fst (copyFontFiles options w))
    (snd (copyFontFiles options w)).
Proof.
  unfold copyFontFiles, Fs.copySync. run_monad. split_run.
  all: unfold copy_round; simpl; split_and!; try done.
  all: rewrite <- ?app_assoc; simpl.
  all: first
         [ exists [], []; rewrite app_nil_r; split_and!; by auto
         | exists [], [copySync_call
                          (Path.join [projectRoot w; srcFolder options])
                          (Path.join [projectRoot w; "ios"; "Fonts"])];
           split_and!; by auto
         | exists [mkdirSync_call (Path.join [projectRoot w; "ios"; "Fonts"])],
                  [];
           split_and!; by auto
         | exists [mkdirSync_call (Path.join [projectRoot w; "ios"; "Fonts"])],
                  [copySync_call
                     (Path.join [projectRoot w; srcFolder options])
                     (Path.join [projectRoot w; "ios"; "Fonts"])];
           split_and!; by auto ].
Qed.

End CopyStep.

Section ProjectStep.

Context {F : Type} (deref : F -> ExpoNativeFontOptions).
Context (addResourceFileToGroup : Capability).

Lemma addFontToXcodeProj_project_calls (options : ExpoNativeFontsOptions F)
    (targetName : string) (fonts : list F) (w : World)
    (o : Outcome unit) (w' : World) :
  addFontToXcodeProj deref addResourceFileToGroup options targetName fonts w
    = (o, w') ->
  exists cs, calls w' = (calls w ++ cs)%list /\ Forall project_call cs.
Proof.
  unfold addFontToXcodeProj, getPBXTargetByName. run_monad.
  destruct (heap w !! modResults w) as [obj|]; run_monad.
  2:{ intros [= <- <-]. simpl. eexists. split; [reflexivity|].
      by repeat constructor. }
  destruct (target _) as [t|]; run_monad.
  2:{ intros [= <- <-]. simpl. eexists. split; [reflexivity|].
      by repeat constructor. }
  destruct (truthy _) as [u|]; run_monad.
  2:{ intros [= <- <-]. simpl. eexists. split; [reflexivity|].
      by repeat constructor. }
  match goal with
  | |- context [for_of ?l ?body ?w1] =>
      destruct (for_of l body w1) as [o1 w2] eqn:Hloop
  end.
  apply register_files_calls in Hloop as (done_ & _ & _ & Hcalls).
  simpl in Hcalls.
  assert (Hshape : exists cs, calls w2 = (calls w ++ cs)%list
                              /\ Forall project_call cs).
  { rewrite Hcalls, <- app_assoc. eexists. split; [reflexivity|].
    constructor; [done|]. apply Forall_forall. intros c Hc.
    apply list_elem_of_In, in_map_iff in Hc as (x & <- & _). done. }
  destruct o1 as [[]|e]; run_monad; intros [= <- <-]; exact Hshape.
Qed.

(** The loop of [updateXcodeProject] over the targets. *)
Lemma updateXcodeProject_project_calls (options : ExpoNativeFontsOptions F)
    (grouped : FontsGrouped F) (targetNames : list string) (w : World)
    (o : Outcome unit) (w' : World) :
  for_of targetNames
    (fun target =>
       match JsObject.get target grouped with
       | Some fonts =>
           addFontToXcodeProj deref addResourceFileToGroup options target fonts
       | None => throw (TypeError "fonts is undefined")
       end) w = (o, w') ->
  exists cs, calls w' = (calls w ++ cs)%list /\ Forall project_call cs.
Proof.
  revert w; induction targetNames as [|targetName rest IH]; intros w.
  - intros [= <- <-]. exists []. by rewrite app_nil_r.
  - rewrite for_of_cons.
    destruct (JsObject.get targetName grouped) as [fonts|].
    + destruct (addFontToXcodeProj _ _ _ _ _ w) as [o1 w1] eqn:Hadd.
      apply addFontToXcodeProj_project_calls in Hadd as (cs & Hcalls & Hall).
      destruct o1 as [[]|e].
      * intros Hrun. apply IH in Hrun as (cs' & Hcalls' & Hall').
        exists (cs ++ cs')%list.
        split; [by rewrite Hcalls', Hcalls, app_assoc | by apply Forall_app].
      * intros [= <- <-]. by exists cs.
    + intros [= <- <-]. exists []. by rewrite app_nil_r.
Qed.

End ProjectStep.

Section Pipeline.

Context {F : Type} (deref : F -> ExpoNativeFontOptions).
Context (addResourceFileToGroup : Capability).

Lemma inject_run (options : ExpoNativeFontsOptions F) (w : World) :
  injectExpoNativeFontsIOS deref addResourceFileToGroup options w
  = match groupByTarget deref (getIOSFonts deref options) with
    | Throw e => (Throw e, w)
    | Ret grouped =>
        match updateInfoPlist deref options grouped w with
        | (Ret _, w1) =>
            updateXcodeProject deref addResourceFileToGroup options grouped w1
        | (Throw e, w1) => (Throw e, w1)
        end
    end.
Proof.
  unfold injectExpoNativeFontsIOS, bind, lift.
  by destruct (groupByTarget deref (getIOSFonts deref options)).
Qed.

Lemma updateXcodeProject_run (options : ExpoNativeFontsOptions F)
    (grouped : FontsGrouped F) (w : World) :
  updateXcodeProject deref addResourceFileToGroup options grouped w
  = match copyFontFiles options w with
    | (Ret _, w1) =>
        for_of (JsObject.keys grouped)
          (fun target =>
             match JsObject.get target grouped with
             | Some fonts =>
                 addFontToXcodeProj deref addResourceFileToGroup options
                   target fonts
             | None => throw (TypeError "fonts is undefined")
             end) w1
    | (Throw e, w1) => (Throw e, w1)
    end.
Proof. reflexivity. Qed.

(** The journal of a run after grouping: the calls of the property-list
    loop, then those of the copy, then those of the registration loop;
    and the property-list loop has patched every target whenever
    anything came after it. *)
Lemma inject_journal (options : ExpoNativeFontsOptions F)
    (grouped : FontsGrouped F) (w : World) :
  groupByTarget deref (getIOSFonts deref options) = Ret grouped ->
  let result :=
    injectExpoNativeFontsIOS deref addResourceFileToGroup options w in
  let sourceDir := Path.join [projectRoot w; srcFolder options] in
  let targetDir := Path.join [projectRoot w; "ios"; "Fonts"] in
  exists plist mk cp registration,
    calls (snd result) = (calls w ++ plist ++ (mk ++ cp) ++ registration)%list
    /\ Forall plist_call plist
    /\ (mk = [] \/ mk = [mkdirSync_call targetDir])
    /\ (cp = [] \/ cp = [copySync_call sourceDir targetDir])
    /\ Forall project_call registration
    /\ (cp = [] -> registration = [])
    /\ (fst result = Ret tt -> cp = [copySync_call sourceDir targetDir])
    /\ (((mk ++ cp) ++ registration)%list <> []
        \/ fst result = Ret tt
        \/ (exists t, fst result = Throw (Error (cannot_find_target t))) ->
        forall targetName, In targetName (JsObject.keys grouped) ->
          exists c, In c plist
            /\ patched_plist_write deref (projectRoot w) grouped
                 targetName c).
Proof.
  intros Hgroup result sourceDir targetDir. subst result.
  rewrite inject_run, Hgroup.
  destruct (updateInfoPlist deref options grouped w) as [o1 w1] eqn:Hplist.
  unfold updateInfoPlist in Hplist. unfold bind at 1 in Hplist.
  simpl in Hplist.
  apply updateInfoPlist_rounds in Hplist
    as (Hroot1 & Hheap1 & Hmod1 & plist & Hcalls1 & Hall1 & Hpost1).
  simpl in Hroot1, Hcalls1, Hpost1.
  destruct o1 as [[]|e1].
  2:{ exists plist, [], [], []. simpl. rewrite app_nil_r.
      split_and!; auto; try done.
      intros [Hne | [Hret | [t Ht]]]; [done | done |].
      exfalso. injection Ht as Ht. by apply (Hpost1 t). }
  rewrite updateXcodeProject_run.
  pose proof (copyFontFiles_round options w1) as Hcopy.
  destruct (copyFontFiles options w1) as [o2 w2].
  unfold copy_round in Hcopy. simpl in Hcopy.
  destruct Hcopy as (Hroot2 & Hheap2 & Hmod2 & mk & cp & Hcalls2 & Hmk & Hcp
                     & Hdone).
  simpl in Hroot2, Hcalls2, Hmk, Hcp, Hdone.
  rewrite Hroot1 in Hmk, Hcp, Hdone. fold sourceDir targetDir in Hmk, Hcp, Hdone.
  destruct o2 as [[]|e2].
  2:{ exists plist, mk, cp, []. simpl. rewrite app_nil_r.
      split_and!; auto; try done.
      by rewrite Hcalls2, Hcalls1, <- app_assoc. }
  specialize (Hdone eq_refl).
  match goal with
  | |- context [for_of ?l ?body w2] =>
      destruct (for_of l body w2) as [o3 w3] eqn:Hreg
  end.
  apply updateXcodeProject_project_calls in Hreg
    as (registration & Hcalls3 & Hall3).
  exists plist, mk, cp, registration. simpl.
  split_and!; auto; try done.
  - by rewrite Hcalls3, Hcalls2, Hcalls1, <- !app_assoc.
  - intros Hnil. rewrite Hnil in Hdone. done.
Qed.

End Pipeline.


Lemma filter_copySync_plist (cs : list Call) :
  Forall plist_call cs -> List.filter is_copySync cs = [].
Proof.
  induction 1 as [|c cs Hc _ IH]; simpl; [done|]. by destruct c.
Qed.

Lemma filter_copySync_project (cs : list Call) :
  Forall project_call cs -> List.filter is_copySync cs = [].
Proof.
  induction 1 as [|c cs Hc _ IH]; simpl; [done|]. by destruct c.
Qed.

Lemma precedes_app (P Q : Call -> bool) (a b : list Call) :
  Forall (fun c => Q c = false) a ->
  Forall (fun c => P c = false) b ->
  precedes P Q (a ++ b).
Proof.
  intros Ha Hb i j ci cj Hi Hj HP HQ.
  destruct (decide (i < length a)) as [Hlt | Hge].
  - destruct (decide (j < length a)) as [Hlt' | Hge']; [|lia].
    rewrite lookup_app_l in Hj by done.
    apply list_elem_of_lookup_2 in Hj.
    rewrite Forall_forall in Ha. specialize (Ha _ Hj). congruence.
  - rewrite lookup_app_r in Hi by lia.
    apply list_elem_of_lookup_2 in Hi.
    rewrite Forall_forall in Hb. specialize (Hb _ Hi). congruence.
Qed.

Lemma plist_calls_kind (cs : list Call) :
  Forall plist_call cs ->
  Forall (fun c => is_copySync c = false) cs
  /\ Forall (fun c => is_project_call c = false) cs.
Proof.
  intros H. split; (eapply Forall_impl; [exact H|]); by intros [].
Qed.

Lemma project_calls_kind (cs : list Call) :
  Forall project_call cs ->
  Forall (fun c => is_copySync c = false) cs
  /\ Forall (fun c => is_writeFileSync c = false) cs.
Proof.
  intros H. split; (eapply Forall_impl; [exact H|]); by intros [].
Qed.

Section Order.

Context {F : Type} (deref : F -> ExpoNativeFontOptions).
Context (addResourceFileToGroup : Capability).

(** C3, as the code has it.  Filter and Group come first and call
    nothing: when grouping throws, the run ends with the world as it
    was.  After them, the journal of calls is three consecutive parts:
    the [mkdirSync] and [writeFileSync] calls of the property-list loop
    over all targets; then the copy step, at most one [mkdirSync] of
    [ios/Fonts] and at most one [copySync] of the font folder into it;
    then the calls of the registration loop, which are there only if
    the copy was made.  So every write of a property list comes before
    the copy, and the copy before every call on the project.  A run
    makes at most one [copySync], and exactly one when it returns
    normally, whatever the number of targets.  And the first part is
    complete when the second begins: whenever the copy step or the
    registration loop has made a call, or the run returns, the
    property-list part holds, for every grouped target, the write of
    that target's [Info.plist] with the font array of its bucket. *)
Theorem pipeline_order (options : ExpoNativeFontsOptions F) (w : World) :
  let result :=
    injectExpoNativeFontsIOS deref addResourceFileToGroup options w in
  let sourceDir := Path.join [projectRoot w; srcFolder options] in
  let targetDir := Path.join [projectRoot w; "ios"; "Fonts"] in
  (forall e,
     groupByTarget deref (getIOSFonts deref options) = Throw e ->
     result = (Throw e, w))
  /\ exists plist mk cp registration,
       let journal := (plist ++ (mk ++ cp) ++ registration)%list in
       calls (snd result) = (calls w ++ journal)%list
       /\ Forall plist_call plist
       /\ (mk = [] \/ mk = [mkdirSync_call targetDir])
       /\ (cp = [] \/ cp = [copySync_call sourceDir targetDir])
       /\ Forall project_call registration
       /\ (cp = [] -> registration = [])
       /\ (fst result = Ret tt -> cp = [copySync_call sourceDir targetDir])
       /\ List.filter is_copySync journal = cp
       /\ precedes is_writeFileSync is_copySync journal
       /\ precedes is_copySync is_project_call journal
       /\ precedes is_writeFileSync is_project_call journal
       /\ (forall grouped,
             groupByTarget deref (getIOSFonts deref options) = Ret grouped ->
             ((mk ++ cp) ++ registration)%list <> []
             \/ fst result = Ret tt ->
             forall targetName, In targetName (JsObject.keys grouped) ->
               exists c, In c plist
                 /\ patched_plist_write deref (projectRoot w) grouped
                      targetName c).
Proof.
  intros result sourceDir targetDir.
  split; [intros e He; by apply inject_grouping_throws|].
  assert (Hshape : forall plist mk cp registration,
             Forall plist_call plist ->
             mk = [] \/ mk = [mkdirSync_call targetDir] ->
             cp = [] \/ cp = [copySync_call sourceDir targetDir] ->
             Forall project_call registration ->
             let journal := (plist ++ (mk ++ cp) ++ registration)%list in
             List.filter is_copySync journal = cp
             /\ precedes is_writeFileSync is_copySync journal
             /\ precedes is_copySync is_project_call journal
             /\ precedes is_writeFileSync is_project_call journal).
  { intros plist mk cp registration Hp Hmk Hcp Hr journal. subst journal.
    destruct (plist_calls_kind _ Hp) as [Hp1 Hp2].
    destruct (project_calls_kind _ Hr) as [Hr1 Hr2].
    assert (Hmk1 : Forall (fun c => is_copySync c = false) mk)
      by (destruct Hmk as [-> | ->]; by repeat constructor).
    assert (Hmk2 : Forall (fun c => is_project_call c = false) mk)
      by (destruct Hmk as [-> | ->]; by repeat constructor).
    assert (Hcp1 : Forall (fun c => is_writeFileSync c = false) cp)
      by (destruct Hcp as [-> | ->]; by repeat constructor).
    assert (Hcp2 : Forall (fun c => is_project_call c = false) cp)
      by (destruct Hcp as [-> | ->]; by repeat constructor).
    split_and!.
    - rewrite !List.filter_app, (filter_copySync_plist _ Hp),
        (filter_copySync_project _ Hr), app_nil_r. simpl.
      by destruct Hmk as [-> | ->], Hcp as [-> | ->].
    - replace (plist ++ (mk ++ cp) ++ registration)%list
        with ((plist ++ mk) ++ (cp ++ registration))%list
        by (by rewrite <- !app_assoc).
      apply precedes_app; by apply Forall_app.
    - rewrite app_assoc. apply precedes_app; [|done].
      apply Forall_app. split; [done|]. by apply Forall_app.
    - rewrite app_assoc. apply precedes_app; [|done].
      apply Forall_app. split; [done|]. by apply Forall_app. }
  destruct (groupByTarget deref (getIOSFonts deref options))
    as [grouped|e] eqn:Hgroup.
  - destruct (inject_journal deref addResourceFileToGroup options grouped w
                Hgroup)
      as (plist & mk & cp & registration & Hcalls & Hp & Hmk & Hcp & Hr
          & Hafter & Hdone & Hpatched).
    exists plist, mk, cp, registration.
    destruct (Hshape plist mk cp registration Hp Hmk Hcp Hr)
      as (H1 & H2 & H3 & H4).
    simpl. split_and!; auto.
    intros grouped' [= <-] Hlater. apply Hpatched.
    destruct Hlater as [Hlater | Hlater]; [by left | right; by left].
  - subst result.
    rewrite (inject_grouping_throws deref addResourceFileToGroup _ _ w Hgroup).
    exists [], [], [], [].
    destruct (Hshape [] [] [] [] (List.Forall_nil _) (or_introl eq_refl)
                (or_introl eq_refl) (List.Forall_nil _)) as (H1 & H2 & H3 & H4).
    simpl. rewrite app_nil_r. split_and!; auto; try done.
Qed.

End Order.

Lemma pipeline_order_witness :
  exists journal,
    calls (snd (injectExpoNativeFontsIOS Sample.fontAt Sample.addInPlace
                  (Sample.options [0; 1]) Sample.world0))
    = journal
    /\ List.filter is_copySync journal
       = [copySync_call "/app/assets/fonts" "/app/ios/Fonts"]
    /\ precedes is_writeFileSync is_copySync journal.
Proof.
  destruct (pipeline_order Sample.fontAt Sample.addInPlace
              (Sample.options [0; 1]) Sample.world0)
    as (_ & plist & mk & cp & registration & Hcalls & _ & _ & _ & _ & _
        & Hdone & Hcount & Hwrites & _).
  exists (plist ++ (mk ++ cp) ++ registration)%list.
  split; [exact Hcalls|]. split; [|exact Hwrites].
  rewrite Hcount. exact (Hdone eq_refl).
Defined.

(** C3, as stated, fails: in the run for the fonts of targets [A] and [B]
    the first property list is written before the font folder is
    copied. *)
Lemma copy_first_counterexample :
  ~ copy_before_writes
      (calls (snd (injectExpoNativeFontsIOS Sample.fontAt Sample.addInPlace
                     (Sample.options [0; 1]) Sample.world0))).
Proof.
  intros H.
  specialize (H 5 0 (copySync_call "/app/assets/fonts" "/app/ios/Fonts")
                (writeFileSync_call "/app/ios/A/Info.plist"
                   ("<plist><dict>" +:+ insertionContents Sample.fontAt [0; 1]
                      +:+ "</dict></plist>"))).
  assert (5 < 0) as Hlt; [|lia].
  apply H; vm_compute; reflexivity.
Qed.

(* ===================================================================== *)
(** * Further properties: selecting and grouping *)
(* ===================================================================== *)

Section Selection.

Context {F : Type} (deref : F -> ExpoNativeFontOptions).

Lemma getIOSFonts_In (options : ExpoNativeFontsOptions F) (font : F) :
  In font (getIOSFonts deref options)
  <-> In font (fonts options) /\ platform (deref font) <> Some "android".
Proof.
  unfold getIOSFonts. rewrite filter_In.
  destruct (platform (deref font)) as [p|]; [|intuition congruence].
  destruct (String.eqb p "android") eqn:E; simpl.
  - apply String.eqb_eq in E as ->. intuition congruence.
  - split; [|tauto]. intros [Hin _]. split; [done|].
    intros [= ->]. by rewrite String.eqb_refl in E.
Qed.

(** X1.  Fonts for Android reach no bucket. When grouping the fonts selected
    for iOS returns, every reference in every bucket is a declared font
    whose [platform] is not [android], and every declared font whose
    [platform] is absent or anything but [android] is in the bucket of each
    target it names. *)
Theorem android_fonts_reach_no_bucket (options : ExpoNativeFontsOptions F)
    (grouped : FontsGrouped F) :
  groupByTarget deref (getIOSFonts deref options) = Ret grouped ->
  (forall t b font,
     JsObject.get t grouped = Some b -> In font b ->
     In font (fonts options) /\ platform (deref font) <> Some "android")
  /\ (forall font ts t,
        In font (fonts options) ->
        platform (deref font) <> Some "android" ->
        targets (deref font) = Some ts -> In t ts ->
        exists b, JsObject.get t grouped = Some b /\ In font b).
Proof.
  intros Hrun.
  destruct (groupByTarget_run_buckets deref _ _ Hrun) as (_ & Hin & Hfrom & _).
  split.
  - intros t b font Hget Hfont. apply getIOSFonts_In. by eapply Hfrom.
  - intros font ts t Hf Hp Hts Ht. eapply Hin; [|done|done].
    by apply getIOSFonts_In.
Qed.

End Selection.

Lemma android_fonts_reach_no_bucket_witness :
  exists b,
    JsObject.get "B" [("A", [0; 1]); ("B", [0])] = Some b /\ In 0 b.
Proof.
  apply (proj2 (android_fonts_reach_no_bucket Sample.fontAt
                  (Sample.options [0; 1; 2])
                  [("A", [0; 1]); ("B", [0])] eq_refl) 0 ["A"; "B"] "B");
    [by left | discriminate | reflexivity | right; by left].
Defined.

Section GroupingKeys.

Context {F : Type} (deref : F -> ExpoNativeFontOptions).

Lemma keys_Permutation {V} (o : JsObject.t V) :
  JsObject.keys o ≡ₚ map fst o.
Proof.
  unfold JsObject.keys. rewrite merge_sort_Permutation.
  induction (map fst o) as [|k ks IH]; [done|].
  rewrite !filter_cons.
  destruct (JsObject.is_array_index k); repeat case_decide; try done.
  - rewrite <- app_comm_cons. by constructor.
  - rewrite <- Permutation_middle. by constructor.
Qed.

Lemma set_sizes (k : string) (b : list F) (font : F) (g : FontsGrouped F) :
  JsObject.get k g = Some b \/ (JsObject.get k g = None /\ b = []) ->
  list_sum (map (fun entry => length entry.2)
              (JsObject.set k (b ++ [font])%list g))
  = S (list_sum (map (fun entry => length entry.2) g)).
Proof.
  induction g as [|[k' v'] g IH]; simpl.
  - intros [? | [_ ->]]; [done|]. simpl. lia.
  - destruct (String.eqb k k') eqn:E; simpl.
    + intros [[= ->] | [? _]]; [|done]. rewrite length_app. simpl. lia.
    + intros H. rewrite IH by done. lia.
Qed.

Lemma groupByTarget_targets_keys (font : F) (ts : list string)
    (g g' : FontsGrouped F) :
  groupByTarget_targets font ts g = Ret g' ->
  NoDup (map fst g) ->
  NoDup (map fst g')
  /\ (forall t, In t (map fst g') <-> In t (map fst g) \/ In t ts)
  /\ list_sum (map (fun entry => length entry.2) g')
     = list_sum (map (fun entry => length entry.2) g) + length ts.
Proof.
  revert g; induction ts as [|t0 ts IH]; intros g; simpl.
  - intros [= <-] Hnd. split; [done|]. split; [tauto | lia].
  - unfold JsObject.read.
    assert (Hstep : forall b : list F,
               (JsObject.get t0 g = Some b
                \/ (JsObject.get t0 g = None /\ b = [])) ->
               groupByTarget_targets font ts
                 (JsObject.set t0 (b ++ [font])%list g) = Ret g' ->
               NoDup (map fst g) ->
               NoDup (map fst g')
               /\ (forall t, In t (map fst g')
                             <-> In t (map fst g) \/ t0 = t \/ In t ts)
               /\ list_sum (map (fun entry => length entry.2) g')
                  = list_sum (map (fun entry => length entry.2) g)
                    + S (length ts)).
    { intros b Hb Hrun Hnd.
      assert (Hkeys := set_keys t0 (b ++ [font])%list g).
      apply IH in Hrun as (Hnd' & Hin' & Hsum').
      - split; [done|]. split.
        + intros t. rewrite Hin', Hkeys.
          destruct Hb as [Hb | [Hb _]]; rewrite Hb.
          * apply get_Some_In in Hb. split; [tauto|].
            intros [? | [<- | ?]]; tauto.
          * rewrite in_app_iff. simpl. tauto.
        + rewrite Hsum', (set_sizes _ _ _ _ Hb). lia.
      - rewrite Hkeys. destruct Hb as [Hb | [Hb _]]; rewrite Hb; [done|].
        apply NoDup_app. split; [done|]. split; [|apply NoDup_singleton].
        intros x Hx Hx'. apply list_elem_of_In in Hx.
        apply list_elem_of_singleton in Hx' as ->.
        by apply (get_None_not_In _ _ Hb). }
    destruct (JsObject.get t0 g) as [b|] eqn:Eb.
    + intros Hrun Hnd. apply (Hstep b); auto.
    + destruct (JsObject.inherited t0); [done|].
      intros Hrun Hnd. apply (Hstep []); auto.
Qed.

Lemma groupByTarget_fonts_keys (fonts : list F) (g g' : FontsGrouped F) :
  groupByTarget_fonts deref fonts g = Ret g' ->
  NoDup (map fst g) ->
  NoDup (map fst g')
  /\ (forall t, In t (map fst g')
                <-> In t (map fst g)
                    \/ exists font ts, In font fonts
                         /\ targets (deref font) = Some ts /\ In t ts)
  /\ list_sum (map (fun entry => length entry.2) g')
     = list_sum (map (fun entry => length entry.2) g)
       + list_sum (map (fun font => length (default [] (targets (deref font))))
                     fonts).
Proof.
  revert g; induction fonts as [|font rest IH]; intros g; simpl.
  - intros [= <-] Hnd. split; [done|]. split; [|lia].
    intros t. split; [tauto|]. intros [? | (? & ? & [] & _)]. done.
  - destruct (targets (deref font)) as [ts|] eqn:Ets; [|done].
    destruct (groupByTarget_targets font ts g) as [g1|e] eqn:E1; [|done].
    intros Hrun Hnd.
    apply groupByTarget_targets_keys in E1 as (Hnd1 & Hin1 & Hsum1); [|done].
    apply IH in Hrun as (Hnd' & Hin' & Hsum'); [|done].
    split; [done|]. split.
    + intros t. rewrite Hin', Hin1. split.
      * intros [[? | Ht] | (f & ts' & Hf & Hts & Ht)]; [tauto | |].
        -- right. exists font, ts. tauto.
        -- right. exists f, ts'. tauto.
      * intros [? | (f & ts' & [<- | Hf] & Hts & Ht)]; [tauto | |].
        -- left. right. congruence.
        -- right. exists f, ts'. tauto.
    + rewrite Hsum', Hsum1. simpl. lia.
Qed.

(** X2.  The targets of a grouping. When grouping returns, the keys of the
    result are exactly the targets some font names, each once; no bucket is
    empty; [Object.keys] and [for ... in] visit each of them exactly once;
    and the buckets together hold one entry for every time a font lists a
    target. *)
Theorem groupByTarget_keys (fonts : list F) (grouped : FontsGrouped F) :
  groupByTarget deref fonts = Ret grouped ->
  NoDup (map fst grouped)
  /\ (forall t, In t (map fst grouped)
                <-> exists font ts, In font fonts
                      /\ targets (deref font) = Some ts /\ In t ts)
  /\ (forall t b, JsObject.get t grouped = Some b -> b <> [])
  /\ JsObject.keys grouped ≡ₚ map fst grouped
  /\ NoDup (JsObject.keys grouped)
  /\ list_sum (map (fun entry => length entry.2) grouped)
     = list_sum (map (fun font => length (default [] (targets (deref font))))
                   fonts).
Proof.
  intros Hrun. unfold groupByTarget in Hrun.
  destruct (groupByTarget_fonts_keys _ _ _ Hrun (NoDup_nil_2))
    as (Hnd & Hin & Hsum).
  apply groupByTarget_fonts_bucket in Hrun as [Hne _]; [|done].
  assert (Hperm := keys_Permutation grouped).
  split_and!.
  - done.
  - intros t. rewrite Hin. simpl. tauto.
  - intros t b Hget ->. by apply (Hne t).
  - done.
  - by rewrite Hperm.
  - rewrite Hsum. simpl. lia.
Qed.

End GroupingKeys.

Lemma groupByTarget_keys_witness :
  NoDup (JsObject.keys [("A", [0; 1]); ("B", [0])])
  /\ list_sum (map (fun entry : string * list nat => length entry.2)
                 [("A", [0; 1]); ("B", [0])]) = 3.
Proof.
  destruct (groupByTarget_keys Sample.fontAt [0; 1]
              [("A", [0; 1]); ("B", [0])] eq_refl)
    as (_ & _ & _ & _ & Hnd & Hsum).
  split; [exact Hnd | exact Hsum].
Defined.

(* ===================================================================== *)
(** * The property-list loop on the file system *)
(* ===================================================================== *)

Section PlistFiles.

Context {F : Type} (deref : F -> ExpoNativeFontOptions).

Lemma keeps_files_refl (w : World) : keeps_files w w.
Proof. unfold keeps_files. by split. Qed.

Lemma keeps_files_trans (w1 w2 w3 : World) :
  keeps_files w1 w2 -> keeps_files w2 w3 -> keeps_files w1 w3.
Proof.
  unfold keeps_files. intros (Hf1 & Hd1) (Hf2 & Hd2).
  split; [by auto | by etrans].
Qed.

Lemma keeps_regular_trans (w1 w2 w3 : World) :
  keeps_files w1 w2 -> keeps_regular w1 w2 -> keeps_regular w2 w3 ->
  keeps_regular w1 w3.
Proof.
  unfold keeps_files, keeps_regular. intros (Hf1 & _) Hn1 Hn2 p Hfile Hdir.
  by auto.
Qed.

(** Making directories that cover no regular file turns no regular file
    into a directory. *)
Lemma mkdir_not_over_file (w : World) (d : string) (chain : list string)
    (p : string) :
  files w !! d = None ->
  existsb (fun q => match files w !! q with Some _ => true | None => false end)
          chain = false ->
  match files w !! p with Some _ => true | None => false end = true ->
  bool_decide (p ∈ dirs w) = false ->
  bool_decide (p ∈ ({[d]} ∪ list_to_set chain ∪ dirs w : gset string)) = false.
Proof.
  intros Hd Hchain Hfile Hdir. apply bool_decide_eq_false.
  apply bool_decide_eq_false in Hdir.
  rewrite !elem_of_union, elem_of_singleton, elem_of_list_to_set.
  intros [[-> | Hin] | Hin]; [by rewrite Hd in Hfile | | done].
  apply list_elem_of_In in Hin.
  assert (Hex : existsb (fun q => match files w !! q with
                                  | Some _ => true | None => false end)
                  chain = true)
    by (apply existsb_exists; by exists p).
  congruence.
Qed.

Lemma no_dict_or_plist_tag_not_copy (plistFilePath : string) :
  Error (no_dict_or_plist_tag plistFilePath) <> Error not_a_directory.
Proof.
  unfold no_dict_or_plist_tag, not_a_directory.
  rewrite !append_cons. intros [= H].
Qed.

Lemma updateInfoPlist_target_files (grouped : FontsGrouped F)
    (targetName : string) (w : World) :
  plist_files_round deref grouped targetName w
    (fst (updateInfoPlist_target deref grouped targetName w))
    (snd (updateInfoPlist_target deref grouped targetName w)).
Proof.
  unfold updateInfoPlist_target.
  destruct (JsObject.get targetName grouped) as [targetFonts|] eqn:Hget.
  2:{ unfold plist_files_round. simpl.
      split_and!; [done | apply keeps_files_refl | by intros p | done | done]. }
  run_monad. split_run.
  all: unfold plist_files_round, keeps_files, keeps_regular,
         Fs.is_file, Fs.is_dir; simpl.
  all: split_and!; try done.
  all: lazymatch goal with
       | |- forall p, p <> _ -> _ =>
           intros p Hp; by rewrite ?lookup_insert_ne by congruence
       | |- forall p, _ = true -> _ = true =>
           intros p Hp;
           destruct (decide (p = plistFilePath_of (projectRoot w) targetName))
             as [-> | Hne];
           [by rewrite lookup_insert_eq
           | by rewrite ?lookup_insert_ne by congruence]
       | |- _ ⊆ _ ∪ _ => apply union_subseteq_r
       | |- forall p, _ = true -> _ = false -> _ = false =>
           intros p Hfile Hdir; by eapply mkdir_not_over_file
       | |- Throw (Error (no_dict_or_plist_tag _)) <> _ =>
           intros [= H]; by apply no_dict_or_plist_tag_not_copy in H
       | |- _ = _ -> exists _, _ =>
           intros _; eexists _, _; split; [exact Hget|];
           split; [apply lookup_insert_eq | apply includes_splice]
       | |- _ => idtac
       end.
Qed.

(** The loop of [updateInfoPlist], on the file system. *)
Lemma updateInfoPlist_loop_files (grouped : FontsGrouped F)
    (targetNames : list string) (w : World) (o : Outcome unit) (w' : World) :
  for_of targetNames (updateInfoPlist_target deref grouped) w = (o, w') ->
  (forall p,
     (forall t, In t targetNames -> p <> plistFilePath_of (projectRoot w) t) ->
     files w' !! p = files w !! p)
  /\ keeps_files w w'
  /\ keeps_regular w w'
  /\ o <> Throw (Error not_a_directory)
  /\ (o = Ret tt ->
      NoDup (map (plistFilePath_of (projectRoot w)) targetNames) ->
      forall t, In t targetNames ->
        exists targetFonts text,
          JsObject.get t grouped = Some targetFonts
          /\ files w' !! plistFilePath_of (projectRoot w) t = Some text
          /\ JsString.includes (insertionContents deref targetFonts) text).
Proof.
  revert w; induction targetNames as [|targetName rest IH]; intros w.
  - intros [= <- <-].
    split_and!; [done | apply keeps_files_refl | by intros p | done | done].
  - rewrite for_of_cons.
    pose proof (updateInfoPlist_target_round deref grouped targetName w)
      as Hround.
    pose proof (updateInfoPlist_target_files grouped targetName w) as Hfiles.
    destruct (updateInfoPlist_target deref grouped targetName w)
      as [o1 w1]; simpl in Hround, Hfiles.
    destruct Hround as (Hroot & _).
    destruct Hfiles as (Hother & Hkeep & Hreg & Herr & Hdone).
    destruct o1 as [[]|e].
    + intros Hrun.
      apply IH in Hrun as (Hother' & Hkeep' & Hreg' & Herr' & Hdone').
      rewrite Hroot in Hother', Hdone'.
      split_and!.
      * intros p Hp. rewrite Hother'; [apply Hother|].
        -- apply Hp. by left.
        -- intros t Ht. apply Hp. by right.
      * by eapply keeps_files_trans.
      * by eapply keeps_regular_trans.
      * done.
      * intros -> Hnd t Hin. simpl in Hnd. apply NoDup_cons in Hnd as [Hnew Hnd].
        destruct Hin as [<- | Hin]; [|by apply Hdone'].
        destruct (Hdone eq_refl) as (targetFonts & text & Hget & Hfile & Hinc).
        exists targetFonts, text. split; [done|]. split; [|done].
        rewrite Hother'; [done|]. intros t Ht Heq. apply Hnew.
        rewrite Heq. apply list_elem_of_In, in_map, Ht.
    + intros [= <- <-]. split_and!.
      * intros p Hp. apply Hother. apply Hp. by left.
      * done.
      * done.
      * done.
      * done.
Qed.

End PlistFiles.

(* ===================================================================== *)
(** * The copy and the registrations on the file system *)
(* ===================================================================== *)

Section CopyFiles.

Context {F : Type}.

(** A path below the source is relocated below the destination. *)
Lemma relocate_below (src dest p : string) :
  Fs.below src p = true -> Fs.below dest (Fs.relocate src dest p) = true.
Proof.
  unfold Fs.below, Fs.relocate. intros H. apply startsWith_split in H.
  rewrite H, append_assoc, slice_from_append, <- append_assoc.
  apply startsWith_append.
Qed.

Lemma entries_below_below (src : string) (w : World) :
  Forall (fun e => Fs.below src (Fs.entry_path e) = true)
    (Fs.entries_below src w).
Proof.
  unfold Fs.entries_below. apply Forall_app.
  split; apply Forall_forall; intros e He;
    apply list_elem_of_In, in_map_iff in He as (x & <- & Hx);
    apply filter_In in Hx as [_ Hx].
  - done.
  - by destruct x.
Qed.

(** The copy writes below the destination only. *)
Lemma copy_entries_other (src dest : string) (l : list Fs.Entry)
    (fs : gmap string string) (ds : gset string) (r : option Exn)
    (fs' : gmap string string) (ds' : gset string) (p : string) :
  Forall (fun e => Fs.below src (Fs.entry_path e) = true) l ->
  Fs.copy_entries src dest l fs ds = (r, (fs', ds')) ->
  Fs.below dest p = false ->
  fs' !! p = fs !! p.
Proof.
  intros Hall. revert fs ds.
  induction Hall as [|e l He _ IH]; intros fs ds; simpl.
  - by intros [= _ <- _].
  - destruct e as [q|q text]; simpl in *.
    + destruct (fs !! Fs.relocate src dest q); [by intros [= _ <- _]|].
      apply IH.
    + case_bool_decide; [by intros [= _ <- _]|].
      intros Hrun Hp. rewrite (IH _ _ Hrun Hp).
      apply lookup_insert_ne. intros <-.
      apply (relocate_below _ dest) in He. congruence.
Qed.

(** The copy removes nothing. *)
Lemma copy_entries_keeps (src dest : string) (l : list Fs.Entry)
    (fs : gmap string string) (ds : gset string) (r : option Exn)
    (fs' : gmap string string) (ds' : gset string) :
  Fs.copy_entries src dest l fs ds = (r, (fs', ds')) ->
  (forall p, is_Some (fs !! p) -> is_Some (fs' !! p)) /\ ds ⊆ ds'.
Proof.
  revert fs ds. induction l as [|e l IH]; intros fs ds; simpl.
  - by intros [= _ <- <-].
  - destruct e as [q|q text]; simpl.
    + destruct (fs !! Fs.relocate src dest q); [by intros [= _ <- <-]|].
      intros Hrun. apply IH in Hrun as [Hf Hd]. split; [done|].
      etrans; [|exact Hd]. apply union_subseteq_r.
    + case_bool_decide; [by intros [= _ <- <-]|].
      intros Hrun. apply IH in Hrun as [Hf Hd]. split; [|done].
      intros p Hp. apply Hf.
      destruct (decide (Fs.relocate src dest q = p)) as [<- | Hne].
      * rewrite lookup_insert_eq. by eexists.
      * by rewrite lookup_insert_ne.
Qed.

Lemma is_file_is_Some (w : World) (p : string) :
  Fs.is_file w p = true <-> is_Some (files w !! p).
Proof.
  unfold Fs.is_file. destruct (files w !! p); split; try done.
Qed.

(** What [copySync] does to the file system. *)
Lemma copySync_files (src dest : string) (w : World) :
  let result := Fs.copySync src dest w in
  (forall p, Fs.below dest p = false ->
     files (snd result) !! p = files w !! p)
  /\ keeps_files w (snd result).
Proof.
  intros result. subst result. unfold keeps_files.
  setoid_rewrite is_file_is_Some.
  unfold Fs.copySync. run_monad.
  destruct (String.eqb _ dest); [by split_and!|].
  destruct (Fs.below _ dest); [by split_and!|].
  destruct (files w !! dest); [by split_and!|].
  destruct (Fs.copy_entries _ _ _ _ _) as [failed [fs ds]] eqn:Hcopy.
  run_monad.
  pose proof (copy_entries_keeps _ _ _ _ _ _ _ _ Hcopy) as [Hf Hd].
  assert (Hother : forall p, Fs.below dest p = false ->
                             fs !! p = files w !! p).
  { intros p Hp.
    eapply copy_entries_other; [apply entries_below_below|exact Hcopy|done]. }
  assert (Hdirs : dirs w ⊆ ds)
    by (etrans; [|exact Hd]; apply union_subseteq_r).
  by destruct failed.
Qed.

(** [copyFontFiles] writes below [ios/Fonts] only, and removes nothing. *)
Lemma copyFontFiles_files (options : ExpoNativeFontsOptions F) (w : World) :
  let result := copyFontFiles options w in
  let targetDir := Path.join [projectRoot w; "ios"; "Fonts"] in
  (forall p, Fs.below targetDir p = false ->
     files (snd result) !! p = files w !! p)
  /\ keeps_files w (snd result).
Proof.
  intros result targetDir. subst result.
  unfold copyFontFiles.
  cbv beta iota delta
    [bind ret throw lift get_world record console_log set_fs
     Fs.existsSync Fs.mkdirSync Fs.lstatSync_isDirectory].
  simpl. fold targetDir.
  set (sourceDir := Path.join [projectRoot w; srcFolder options]).
  assert (Hsame : forall w0 : World,
             files w0 = files w -> dirs w ⊆ dirs w0 ->
             (forall p, Fs.below targetDir p = false ->
                files (snd (Fs.copySync sourceDir targetDir w0)) !! p
                = files w !! p)
             /\ keeps_files w (snd (Fs.copySync sourceDir targetDir w0))).
  { intros w0 Hfiles Hdirs.
    destruct (copySync_files sourceDir targetDir w0) as (Hother & Hf & Hd).
    unfold keeps_files, Fs.is_file in *. rewrite <- Hfiles. split_and!.
    - done.
    - done.
    - by etrans. }
  assert (Hnothing : forall c cs,
             keeps_files w
               {| files := files w; dirs := dirs w; heap := heap w;
                  projectRoot := projectRoot w; modResults := modResults w;
                  console := c; calls := cs |})
    by (intros; by split).
  repeat match goal with
         | |- context [if ?b then _ else _] =>
             lazymatch b with
             | context [if _ then _ else _] => fail
             | _ => destruct b eqn:?; simpl
             end
         end.
  all: try (split; [done | apply Hnothing]).
  all: match goal with
       | |- context [Fs.copySync ?s ?t ?w0] =>
           destruct (Hsame w0) as [Hother Hkeeps];
           [done | try done; try apply union_subseteq_r |];
           destruct (Fs.copySync s t w0) as [[[]|e] w2];
           simpl in *; by split
       end.
Qed.

End CopyFiles.

Section RegistrationFiles.

Context {F : Type} (deref : F -> ExpoNativeFontOptions).
Context (addResourceFileToGroup : Capability).

Lemma register_files_fs (project : nat) (targetUuid : string)
    (fontFiles : list string) (w : World) (o : Outcome unit) (w' : World) :
  for_of fontFiles
    (addFontToXcodeProj_file addResourceFileToGroup project targetUuid) w
    = (o, w') ->
  files w' = files w /\ dirs w' = dirs w /\ projectRoot w' = projectRoot w.
Proof.
  revert w; induction fontFiles as [|filePath rest IH]; intros w.
  - by intros [= <- <-].
  - rewrite for_of_cons, addFontToXcodeProj_file_run.
    destruct (addResourceFileToGroup _ (heap w)) as [[p|e] h'].
    + intros Hrun. by apply IH in Hrun.
    + by intros [= <- <-].
Qed.

(** Registration leaves the file system alone. *)
Lemma addFontToXcodeProj_fs (options : ExpoNativeFontsOptions F)
    (targetName : string) (fonts : list F) (w : World)
    (o : Outcome unit) (w' : World) :
  addFontToXcodeProj deref addResourceFileToGroup options targetName fonts w
    = (o, w') ->
  files w' = files w /\ dirs w' = dirs w /\ projectRoot w' = projectRoot w.
Proof.
  unfold addFontToXcodeProj, getPBXTargetByName. run_monad.
  destruct (heap w !! modResults w) as [obj|]; run_monad.
  2:{ by intros [= <- <-]. }
  destruct (target _) as [t|]; run_monad.
  2:{ by intros [= <- <-]. }
  destruct (truthy _) as [u|]; run_monad.
  2:{ by intros [= <- <-]. }
  match goal with
  | |- context [for_of ?l ?body ?w1] =>
      destruct (for_of l body w1) as [o1 w2] eqn:Hloop
  end.
  apply register_files_fs in Hloop. simpl in Hloop.
  destruct o1 as [[]|e]; run_monad; by intros [= <- <-].
Qed.

Lemma updateXcodeProject_loop_fs (options : ExpoNativeFontsOptions F)
    (grouped : FontsGrouped F) (targetNames : list string) (w : World)
    (o : Outcome unit) (w' : World) :
  for_of targetNames
    (fun target =>
       match JsObject.get target grouped with
       | Some fonts =>
           addFontToXcodeProj deref addResourceFileToGroup options target fonts
       | None => throw (TypeError "fonts is undefined")
       end) w = (o, w') ->
  files w' = files w /\ dirs w' = dirs w /\ projectRoot w' = projectRoot w.
Proof.
  revert w; induction targetNames as [|targetName rest IH]; intros w.
  - by intros [= <- <-].
  - rewrite for_of_cons.
    destruct (JsObject.get targetName grouped) as [fonts|].
    + destruct (addFontToXcodeProj _ _ _ _ _ w) as [o1 w1] eqn:Hadd.
      apply addFontToXcodeProj_fs in Hadd as (Hf & Hd & Hr).
      destruct o1 as [[]|e].
      * intros Hrun. apply IH in Hrun as (Hf' & Hd' & Hr'). 
        split_and!; congruence.
      * by intros [= <- <-].
    + by intros [= <- <-].
Qed.

End RegistrationFiles.

(* ===================================================================== *)
(** * The file system after a run *)
(* ===================================================================== *)

Section CopyErrors.

Context {F : Type}.

Lemma copyFontFiles_no_directory (options : ExpoNativeFontsOptions F)
    (w : World) :
  let sourceDir := Path.join [projectRoot w; srcFolder options] in
  let targetDir := Path.join [projectRoot w; "ios"; "Fonts"] in
  Fs.is_dir w sourceDir = false ->
  Fs.is_file w sourceDir = true
  \/ Fs.is_dir w (Fs.strip_trailing sourceDir) = false ->
  copyFontFiles options w
  = (Throw (if Fs.is_file w sourceDir then Error not_a_directory
            else if Fs.is_file w (Fs.strip_trailing sourceDir)
                 then SystemError "ENOTDIR" sourceDir
                 else SystemError "ENOENT" sourceDir),
     {| files := files w; dirs := dirs w; heap := heap w;
        projectRoot := projectRoot w; modResults := modResults w;
        console :=
          (console w
           ++ [LogString "Copying files";
               LogString ("SourceDir: " +:+ sourceDir);
               LogString ("TargetDir: " +:+ targetDir)])%list;
        calls := calls w |}).
Proof.
  intros sourceDir targetDir Hdir Hstripped.
  unfold copyFontFiles.
  cbv beta iota delta
    [bind ret throw lift get_world record console_log
     Fs.lstatSync_isDirectory].
  simpl. fold sourceDir targetDir.
  change (Fs.is_dir ?w0 ?p) with (bool_decide (p ∈ dirs w0)) in *.
  change (Fs.is_file ?w0 ?p)
    with (match files w0 !! p with Some _ => true | None => false end) in *.
  simpl. rewrite Hdir, <- !app_assoc. simpl.
  destruct (files w !! sourceDir); [done|].
  destruct Hstripped as [? | ->]; [done|].
  by destruct (files w !! Fs.strip_trailing sourceDir).
Qed.


End CopyErrors.


(** A source folder named with a trailing separator is copied like the
    folder itself. *)
Example copyFontFiles_trailing_separator :
  let result :=
    copyFontFiles (F := nat) {| fonts := [0]; srcFolder := "assets/fonts/" |}
      Sample.world0 in
  fst result = Ret tt
  /\ files (snd result) !! "/app/ios/Fonts/sub/font2.ttf"
     = Some "font2 bytes".
Proof. vm_compute. split; reflexivity. Qed.

Section PipelineFiles.

Context {F : Type} (deref : F -> ExpoNativeFontOptions).
Context (addResourceFileToGroup : Capability).

(** The three steps of a run after grouping, as equations between the
    worlds they go through. *)
Lemma inject_steps (options : ExpoNativeFontsOptions F)
    (grouped : FontsGrouped F) (w : World) :
  groupByTarget deref (getIOSFonts deref options) = Ret grouped ->
  let result :=
    injectExpoNativeFontsIOS deref addResourceFileToGroup options w in
  let w0 :=
    {| files := files w; dirs := dirs w; heap := heap w;
       projectRoot := projectRoot w; modResults := modResults w;
       console := (console w ++ [LogString "Updating Info.plist files"])%list;
       calls := calls w |} in
  exists o1 w1,
    for_of (JsObject.keys grouped) (updateInfoPlist_target deref grouped) w0
      = (o1, w1)
    /\ match o1 with
       | Throw e => result = (Throw e, w1)
       | Ret _ =>
           match copyFontFiles options w1 with
           | (Throw e, w2) => result = (Throw e, w2)
           | (Ret _, w2) =>
               for_of (JsObject.keys grouped)
                 (fun target =>
                    match JsObject.get target grouped with
                    | Some fonts =>
                        addFontToXcodeProj deref addResourceFileToGroup
                          options target fonts
                    | None => throw (TypeError "fonts is undefined")
                    end) w2
               = result
           end
       end.
Proof.
  intros Hgroup result w0.
  assert (Hresult :
            result
            = match for_of (JsObject.keys grouped)
                      (updateInfoPlist_target deref grouped) w0 with
              | (Ret _, w1) =>
                  updateXcodeProject deref addResourceFileToGroup options
                    grouped w1
              | (Throw e, w1) => (Throw e, w1)
              end)
    by (subst result; by rewrite inject_run, Hgroup).
  rewrite Hresult. clear Hresult.
  destruct (for_of (JsObject.keys grouped) _ w0) as [[[]|e] w1].
  - exists (Ret tt), w1. split; [done|].
    rewrite updateXcodeProject_run.
    by destruct (copyFontFiles options w1) as [[[]|e] w2].
  - by exists (Throw e), w1.
Qed.

(** X4.  A run removes nothing and writes in two places only. Whatever the
    outcome, every regular file is still there, every directory is still
    there, and a file keeps its text unless it lies below [ios/Fonts] or is
    the [Info.plist] of a target that a font selected for iOS names. *)
Theorem run_keeps_other_files (options : ExpoNativeFontsOptions F)
    (w : World) :
  let result :=
    injectExpoNativeFontsIOS deref addResourceFileToGroup options w in
  let targetDir := Path.join [projectRoot w; "ios"; "Fonts"] in
  (forall p, Fs.is_file w p = true -> Fs.is_file (snd result) p = true)
  /\ dirs w ⊆ dirs (snd result)
  /\ (forall p,
        Fs.below targetDir p = false ->
        (forall font ts t,
           In font (getIOSFonts deref options) ->
           targets (deref font) = Some ts -> In t ts ->
           p <> plistFilePath_of (projectRoot w) t) ->
        files (snd result) !! p = files w !! p).
Proof.
  intros result targetDir.
  destruct (groupByTarget deref (getIOSFonts deref options))
    as [grouped|e] eqn:Hgroup.
  2:{ subst result. rewrite inject_run, Hgroup. simpl. by split_and!. }
  destruct (inject_steps options grouped w Hgroup) as (o1 & w1 & Hloop & Hrest).
  fold result in Hrest.
  destruct (groupByTarget_fonts_keys deref _ _ _ Hgroup (NoDup_nil_2))
    as (_ & Hkeys & _).
  pose proof (updateInfoPlist_rounds deref grouped _ _ _ _ Hloop)
    as (Hroot1 & _).
  apply updateInfoPlist_loop_files in Hloop as (Hother1 & [Hf1 Hd1] & _ & _).
  simpl in Hother1, Hd1, Hroot1.
  change (forall p, Fs.is_file w p = true -> Fs.is_file w1 p = true) in Hf1.
  assert (Hplist : forall p,
             (forall font ts t,
                In font (getIOSFonts deref options) ->
                targets (deref font) = Some ts -> In t ts ->
                p <> plistFilePath_of (projectRoot w) t) ->
             files w1 !! p = files w !! p).
  { intros p Hp. apply Hother1. intros t Ht.
    apply keys_In, Hkeys in Ht as [[] | (font & ts & Hfont & Hts & Hin)].
    by eapply Hp. }
  destruct o1 as [[]|e1].
  2:{ rewrite Hrest. simpl. split_and!; [done | done |].
      intros p _ Hne. by apply Hplist. }
  pose proof (copyFontFiles_files options w1) as Hcopy.
  simpl in Hcopy. rewrite Hroot1 in Hcopy. fold targetDir in Hcopy.
  destruct Hcopy as (Hother2 & Hf2 & Hd2).
  destruct (copyFontFiles options w1) as [[[]|e2] w2]; simpl in *.
  2:{ rewrite Hrest. simpl. split_and!.
      - by auto.
      - by etrans.
      - intros p Hp Hne. rewrite Hother2 by done. by apply Hplist. }
  rewrite (surjective_pairing result) in Hrest.
  apply updateXcodeProject_loop_fs in Hrest as (Hfiles & Hdirs & _).
  unfold Fs.is_file in *. rewrite Hfiles, Hdirs. split_and!.
  - intros p Hp. by apply Hf2, Hf1.
  - by etrans.
  - intros p Hp Hne. rewrite Hother2 by done. by apply Hplist.
Qed.

(** X5.  After a run that returns, every target's [Info.plist] holds the font
    array of the target's bucket, provided the targets have property lists
    at different paths, none of them below [ios/Fonts]. *)
Theorem run_leaves_fonts_in_plists (options : ExpoNativeFontsOptions F)
    (grouped : FontsGrouped F) (w : World) :
  let result :=
    injectExpoNativeFontsIOS deref addResourceFileToGroup options w in
  let targetDir := Path.join [projectRoot w; "ios"; "Fonts"] in
  groupByTarget deref (getIOSFonts deref options) = Ret grouped ->
  fst result = Ret tt ->
  NoDup (map (plistFilePath_of (projectRoot w)) (JsObject.keys grouped)) ->
  (forall t, In t (JsObject.keys grouped) ->
     Fs.below targetDir (plistFilePath_of (projectRoot w) t) = false) ->
  forall t targetFonts,
    JsObject.get t grouped = Some targetFonts ->
    exists text,
      files (snd result) !! plistFilePath_of (projectRoot w) t = Some text
      /\ JsString.includes (insertionContents deref targetFonts) text.
Proof.
  intros result targetDir Hgroup Hret Hnd Hbelow t targetFonts Hget.
  destruct (inject_steps options grouped w Hgroup) as (o1 & w1 & Hloop & Hrest).
  fold result in Hrest.
  pose proof (updateInfoPlist_rounds deref grouped _ _ _ _ Hloop)
    as (Hroot1 & _).
  apply updateInfoPlist_loop_files in Hloop as (_ & _ & _ & _ & Hdone).
  simpl in Hdone, Hroot1.
  destruct o1 as [[]|e1]; [|by rewrite Hrest in Hret].
  assert (Hin : In t (JsObject.keys grouped))
    by (apply keys_In; by eapply get_Some_In).
  destruct (Hdone eq_refl Hnd t Hin) as (targetFonts' & text & Hget' & Hfile & Hinc).
  assert (targetFonts' = targetFonts) as -> by congruence.
  exists text. split; [|done].
  pose proof (copyFontFiles_files options w1) as Hcopy.
  simpl in Hcopy. rewrite Hroot1 in Hcopy. fold targetDir in Hcopy.
  destruct Hcopy as (Hother2 & _).
  destruct (copyFontFiles options w1) as [[[]|e2] w2]; simpl in *;
    [|by rewrite Hrest in Hret].
  rewrite (surjective_pairing result) in Hrest.
  apply updateXcodeProject_loop_fs in Hrest as (Hfiles & _).
  rewrite Hfiles, Hother2; [done | by apply Hbelow].
Qed.

(** X6.  A source folder that is a regular file stops the run, but late. The
    run never returns normally and never gets to copy or register anything:
    its calls are those of the property-list loop, and the project is as it
    was. When it ends with the error about the source folder, every target's
    [Info.plist] has already been written with the target's font array. *)
Theorem source_folder_checked_after_plists
    (options : ExpoNativeFontsOptions F) (grouped : FontsGrouped F)
    (w : World) :
  let result :=
    injectExpoNativeFontsIOS deref addResourceFileToGroup options w in
  let sourceDir := Path.join [projectRoot w; srcFolder options] in
  groupByTarget deref (getIOSFonts deref options) = Ret grouped ->
  Fs.is_file w sourceDir = true ->
  Fs.is_dir w sourceDir = false ->
  exists e cs,
    fst result = Throw e
    /\ calls (snd result) = (calls w ++ cs)%list
    /\ Forall plist_call cs
    /\ heap (snd result) = heap w
    /\ modResults (snd result) = modResults w
    /\ (e = Error not_a_directory ->
        forall targetName, In targetName (JsObject.keys grouped) ->
          exists c, In c cs
            /\ patched_plist_write deref (projectRoot w) grouped
                 targetName c).
Proof.
  intros result sourceDir Hgroup Hfile Hdir.
  destruct (inject_steps options grouped w Hgroup) as (o1 & w1 & Hloop & Hrest).
  fold result in Hrest.
  pose proof (updateInfoPlist_rounds deref grouped _ _ _ _ Hloop)
    as (Hroot1 & Hheap1 & Hmod1 & cs & Hcalls1 & Hall1 & Hpost1).
  apply updateInfoPlist_loop_files in Hloop
    as (_ & [Hf1 _] & Hreg1 & Herr1 & _).
  simpl in Hroot1, Hheap1, Hmod1, Hcalls1, Hpost1.
  destruct o1 as [[]|e1].
  2:{ exists e1, cs. rewrite Hrest. simpl. split_and!; try done.
      intros ->. done. }
  assert (Hfile1 : Fs.is_file w1 sourceDir = true) by by apply Hf1.
  assert (Hdir1 : Fs.is_dir w1 sourceDir = false) by by apply Hreg1.
  pose proof (copyFontFiles_no_directory options w1) as Hcopy.
  simpl in Hcopy. rewrite Hroot1 in Hcopy. fold sourceDir in Hcopy.
  rewrite (Hcopy Hdir1 (or_introl Hfile1)), Hfile1 in Hrest.
  exists (Error not_a_directory), cs. rewrite Hrest. simpl.
  split_and!; try done.
Qed.

End PipelineFiles.

Lemma run_leaves_fonts_in_plists_witness :
  exists text,
    files (snd (injectExpoNativeFontsIOS Sample.fontAt Sample.addInPlace
                  (Sample.options [0; 1]) Sample.world0))
      !! plistFilePath_of (projectRoot Sample.world0) "B" = Some text
    /\ JsString.includes (insertionContents Sample.fontAt [0]) text.
Proof.
  refine (run_leaves_fonts_in_plists Sample.fontAt Sample.addInPlace
            (Sample.options [0; 1]) [("A", [0; 1]); ("B", [0])]
            Sample.world0 eq_refl _ _ _ "B" [0] eq_refl).
  - vm_compute. reflexivity.
  - apply (bool_decide_unpack _). vm_compute. reflexivity.
  - intros t Ht.
    vm_compute in Ht. destruct Ht as [<- | [<- | []]]; vm_compute; reflexivity.
Defined.

Lemma source_folder_checked_after_plists_witness :
  exists c,
    In c (calls (snd (injectExpoNativeFontsIOS Sample.fontAt Sample.addInPlace
                        {| fonts := [0; 1];
                           srcFolder := "assets/fonts/font1.ttf" |}
                        Sample.world0)))
    /\ patched_plist_write Sample.fontAt "/app"
         [("A", [0; 1]); ("B", [0])] "B" c.
Proof.
  destruct (source_folder_checked_after_plists Sample.fontAt Sample.addInPlace
              {| fonts := [0; 1]; srcFolder := "assets/fonts/font1.ttf" |}
              [("A", [0; 1]); ("B", [0])] Sample.world0
              eq_refl ltac:(vm_compute; reflexivity)
              ltac:(vm_compute; reflexivity))
    as (e & cs & Hthrow & Hcalls & _ & _ & _ & Hpatched).
  assert (He : e = Error not_a_directory).
  { vm_compute in Hthrow. vm_compute. congruence. }
  destruct (Hpatched He "B") as (c & Hc & Hw); [vm_compute; tauto|].
  exists c. split; [|exact Hw]. rewrite Hcalls. exact Hc.
Defined.

(* ===================================================================== *)
(** * The registrations of a run *)
(* ===================================================================== *)

Section RegistrationsOfRun.

Context {F : Type} (deref : F -> ExpoNativeFontOptions).
Context (addResourceFileToGroup : Capability).

Lemma registrations_app (a b : list Call) :
  registrations (a ++ b) = (registrations a ++ registrations b)%list.
Proof. apply flat_map_app. Qed.

Lemma registrations_plist (cs : list Call) :
  Forall plist_call cs -> registrations cs = [].
Proof.
  induction 1 as [|c cs Hc _ IH]; [done|]. by destruct c.
Qed.

Lemma registrations_map (f : string -> AddResourceArgs) (l : list string) :
  registrations (map (fun x => addResourceFileToGroup_call (f x)) l) = map f l.
Proof. induction l as [|x l IH]; simpl; [done | by rewrite <- IH]. Qed.

(** The calls of [addFontToXcodeProj] when it returns: one look at the
    target section, then one registration for each font of the bucket,
    in order. *)
Lemma addFontToXcodeProj_returns (options : ExpoNativeFontsOptions F)
    (targetName : string) (fonts : list F) (w w' : World) :
  addFontToXcodeProj deref addResourceFileToGroup options targetName fonts w
    = (Ret tt, w') ->
  exists u,
    calls w'
    = (calls w
       ++ pbxNativeTargetSection_call (modResults w)
       :: map (fun filePath =>
                 addResourceFileToGroup_call
                   {| filepath := Path.join ["Fonts"; filePath];
                      groupName := "Resources";
                      project := modResults w;
                      isBuildFile := true;
                      verbose := true;
                      targetUuid := u |})
              (map (fun font => filePath (deref font)) fonts))%list.
Proof.
  unfold addFontToXcodeProj, getPBXTargetByName. run_monad.
  destruct (heap w !! modResults w) as [obj|]; run_monad; [|done].
  destruct (target _) as [t|]; run_monad; [|done].
  destruct (truthy _) as [u|]; run_monad; [|done].
  match goal with
  | |- context [for_of ?l ?body ?w1] =>
      destruct (for_of l body w1) as [o1 w2] eqn:Hloop
  end.
  apply register_files_calls in Hloop as (done_ & Hall & _ & Hcalls).
  simpl in Hcalls.
  destruct o1 as [[]|e]; run_monad; [|done]. intros [= <-]. simpl.
  exists u. rewrite Hcalls, (Hall eq_refl), <- app_assoc. done.
Qed.

Lemma updateXcodeProject_loop_returns (options : ExpoNativeFontsOptions F)
    (grouped : FontsGrouped F) (targetNames : list string) (w w' : World) :
  for_of targetNames
    (fun target =>
       match JsObject.get target grouped with
       | Some fonts =>
           addFontToXcodeProj deref addResourceFileToGroup options target fonts
       | None => throw (TypeError "fonts is undefined")
       end) w = (Ret tt, w') ->
  exists cs,
    calls w' = (calls w ++ cs)%list
    /\ map filepath (registrations cs)
       = flat_map
           (fun t => map (fun font => Path.join ["Fonts"; filePath (deref font)])
                         (bucket grouped t))
           targetNames
    /\ Forall (fun args => groupName args = "Resources"
                           /\ isBuildFile args = true)
              (registrations cs).
Proof.
  revert w; induction targetNames as [|targetName rest IH]; intros w.
  - intros [= <-]. exists []. by rewrite app_nil_r.
  - rewrite for_of_cons.
    destruct (JsObject.get targetName grouped) as [fonts|] eqn:Hget; [|done].
    destruct (addFontToXcodeProj _ _ _ _ _ w) as [[[]|e] w1] eqn:Hadd; [|done].
    apply addFontToXcodeProj_returns in Hadd as [u Hcalls].
    intros Hrun. apply IH in Hrun as (cs & Hcalls' & Hpaths & Hall).
    eexists. split; [by rewrite Hcalls', Hcalls, <- app_assoc|].
    rewrite registrations_app.
    assert (Hfirst : forall l,
               registrations
                 (pbxNativeTargetSection_call (modResults w)
                  :: map (fun filePath =>
                            addResourceFileToGroup_call
                              {| filepath := Path.join ["Fonts"; filePath];
                                 groupName := "Resources";
                                 project := modResults w;
                                 isBuildFile := true;
                                 verbose := true;
                                 targetUuid := u |}) l)
               = map (fun filePath =>
                        {| filepath := Path.join ["Fonts"; filePath];
                           groupName := "Resources";
                           project := modResults w;
                           isBuildFile := true;
                           verbose := true;
                           targetUuid := u |}) l).
    { intros l. apply (registrations_map
                         (fun filePath =>
                            {| filepath := Path.join ["Fonts"; filePath];
                               groupName := "Resources";
                               project := modResults w;
                               isBuildFile := true;
                               verbose := true;
                               targetUuid := u |})). }
    rewrite Hfirst.
    split.
    + rewrite map_app, Hpaths, !map_map. simpl.
      unfold bucket at 2. by rewrite Hget.
    + apply Forall_app. split; [|done].
      apply Forall_forall. intros args Hin.
      apply list_elem_of_In, in_map_iff in Hin as (x & <- & _). done.
Qed.

Lemma list_sum_Permutation (l k : list nat) :
  l ≡ₚ k -> list_sum l = list_sum k.
Proof. induction 1; simpl; lia. Qed.

Lemma length_flat_map_map {A B C} (f : B -> C) (g : A -> list B)
    (l : list A) :
  length (flat_map (fun t => map f (g t)) l)
  = list_sum (map (fun t => length (g t)) l).
Proof.
  induction l as [|t ts IH]; [done|].
  simpl. by rewrite length_app, length_map, IH.
Qed.

Lemma bucket_sizes (g : FontsGrouped F) :
  NoDup (map fst g) ->
  map (fun t => length (bucket g t)) (map fst g)
  = map (fun entry => length entry.2) g.
Proof.
  induction g as [|[k v] g IH]; [done|]. simpl.
  intros [Hnew Hnd]%NoDup_cons. unfold bucket at 1. simpl.
  rewrite String.eqb_refl. simpl. f_equal.
  rewrite <- IH by done. apply map_ext_in. intros t Ht.
  unfold bucket. simpl.
  destruct (String.eqb t k) eqn:E; [|done].
  apply String.eqb_eq in E as ->. by apply list_elem_of_In in Ht.
Qed.

(** X7.  The registrations of a run that returns. The file paths registered
    are, target by target in the order of [Object.keys], the paths
    [Fonts/<filePath>] of the fonts of the target's bucket in declaration
    order; every one goes to the group [Resources] as a build file; and
    there is one registration for every time a font selected for iOS lists a
    target. *)
Theorem registrations_follow_buckets (options : ExpoNativeFontsOptions F)
    (grouped : FontsGrouped F) (w : World) :
  let result :=
    injectExpoNativeFontsIOS deref addResourceFileToGroup options w in
  groupByTarget deref (getIOSFonts deref options) = Ret grouped ->
  fst result = Ret tt ->
  exists cs,
    calls (snd result) = (calls w ++ cs)%list
    /\ map filepath (registrations cs)
       = flat_map
           (fun t => map (fun font => Path.join ["Fonts"; filePath (deref font)])
                         (bucket grouped t))
           (JsObject.keys grouped)
    /\ Forall (fun args => groupName args = "Resources"
                           /\ isBuildFile args = true)
              (registrations cs)
    /\ length (registrations cs)
       = list_sum (map (fun font => length (default [] (targets (deref font))))
                       (getIOSFonts deref options)).
Proof.
  intros result Hgroup Hret.
  destruct (inject_steps deref addResourceFileToGroup options grouped w Hgroup)
    as (o1 & w1 & Hloop & Hrest).
  fold result in Hrest.
  pose proof (updateInfoPlist_rounds deref grouped _ _ _ _ Hloop)
    as (_ & _ & _ & plist & Hcalls1 & Hall1 & _).
  simpl in Hcalls1.
  destruct o1 as [[]|e1]; [|by rewrite Hrest in Hret].
  pose proof (copyFontFiles_round options w1) as Hcopy.
  destruct (copyFontFiles options w1) as [[[]|e2] w2];
    [|by rewrite Hrest in Hret].
  unfold copy_round in Hcopy. simpl in Hcopy.
  destruct Hcopy as (_ & _ & _ & mk & cp & Hcalls2 & Hmk & Hcp & _).
  rewrite (surjective_pairing result), Hret in Hrest.
  apply updateXcodeProject_loop_returns in Hrest as (cs & Hcalls3 & Hpaths & Hall).
  assert (Hfront : registrations (plist ++ mk ++ cp) = []).
  { rewrite !registrations_app, (registrations_plist _ Hall1).
    by destruct Hmk as [-> | ->], Hcp as [-> | ->]. }
  exists ((plist ++ mk ++ cp) ++ cs)%list.
  rewrite registrations_app, Hfront. simpl.
  split; [by rewrite Hcalls3, Hcalls2, Hcalls1, <- !app_assoc|].
  split; [done|]. split; [done|].
  rewrite <- (length_map filepath), Hpaths.
  destruct (groupByTarget_fonts_keys deref _ _ _ Hgroup (NoDup_nil_2))
    as (Hnd & _ & Hsum).
  simpl in Hsum. rewrite <- Hsum, <- (bucket_sizes grouped Hnd).
  rewrite <- (list_sum_Permutation _ _
                (Permutation_map _ (keys_Permutation grouped))).
  apply length_flat_map_map.
Qed.

End RegistrationsOfRun.

Lemma registrations_follow_buckets_witness :
  exists cs,
    calls (snd (injectExpoNativeFontsIOS Sample.fontAt Sample.addInPlace
                  (Sample.options [0; 1]) Sample.world0)) = cs
    /\ map filepath (registrations cs)
       = ["Fonts/font1.ttf"; "Fonts/sub/font2.ttf"; "Fonts/font1.ttf"].
Proof.
  destruct (registrations_follow_buckets Sample.fontAt Sample.addInPlace
              (Sample.options [0; 1]) [("A", [0; 1]); ("B", [0])]
              Sample.world0 eq_refl ltac:(vm_compute; reflexivity))
    as (cs & Hcalls & Hpaths & _).
  exists cs. split; [exact Hcalls|]. rewrite Hpaths.
  vm_compute. reflexivity.
Defined.

(* ===================================================================== *)
(** * Configurations for Android only, and patching twice *)
(* ===================================================================== *)

Section AndroidOnly.

Context {F : Type} (deref : F -> ExpoNativeFontOptions).
Context (addResourceFileToGroup : Capability).

Lemma getIOSFonts_none (options : ExpoNativeFontsOptions F) :
  (forall font, In font (fonts options) ->
     platform (deref font) = Some "android") ->
  getIOSFonts deref options = [].
Proof.
  unfold getIOSFonts. induction (fonts options) as [|font rest IH]; [done|].
  intros Hall. simpl. rewrite (Hall font) by by left. simpl.
  apply IH. intros f Hf. apply Hall. by right.
Qed.

(** X8.  A configuration with fonts for Android only. No font needs
    [targets], nothing is grouped, no [Info.plist] is read or written and
    the project is not consulted: after the line logged by
    [updateInfoPlist], the run is the copy of the font folder, and fails or
    returns as the copy does. *)
Theorem android_only_run_copies (options : ExpoNativeFontsOptions F)
    (w : World) :
  (forall font, In font (fonts options) ->
     platform (deref font) = Some "android") ->
  injectExpoNativeFontsIOS deref addResourceFileToGroup options w
  = (console_log (LogString "Updating Info.plist files") ;;;
     copyFontFiles options) w.
Proof.
  intros Hall. rewrite inject_run, (getIOSFonts_none options Hall).
  change (groupByTarget deref []) with (Ret ([] : FontsGrouped F)).
  cbv iota beta.
  change (updateInfoPlist deref options [] w)
    with (console_log (LogString "Updating Info.plist files") w).
  unfold bind at 1. simpl fst. cbv iota beta.
  unfold console_log at 1 2. cbv iota beta.
  rewrite updateXcodeProject_run.
  change (JsObject.keys ([] : FontsGrouped F)) with ([] : list string).
  simpl for_of.
  by destruct (copyFontFiles options _) as [[[]|e] w2].
Qed.

End AndroidOnly.

Lemma android_only_run_copies_witness :
  calls (snd (injectExpoNativeFontsIOS Sample.fontAt Sample.addInPlace
                (Sample.options [2]) Sample.world0))
  = [mkdirSync_call "/app/ios/Fonts";
     copySync_call "/app/assets/fonts" "/app/ios/Fonts"].
Proof.
  rewrite (android_only_run_copies Sample.fontAt Sample.addInPlace
             (Sample.options [2]) Sample.world0).
  - vm_compute. reflexivity.
  - intros font [<- | []]. reflexivity.
Defined.

Section FirstOccurrence.

Import JsString.

Lemma startsWith_reads_prefix (p s b c : string) :
  String.length p <= String.length s ->
  startsWith p (s +:+ b) = startsWith p (s +:+ c).
Proof.
  revert s; induction p as [|x p IH]; intros [|y s] Hlen; simpl in *;
    try done; try lia.
  f_equal. apply IH. lia.
Qed.

Lemma indexOf_startsWith (p s : string) :
  startsWith p s = true -> indexOf p s = Some 0.
Proof. intros H. destruct s; simpl; by rewrite H. Qed.

Lemma indexOf_cons (p : string) (x : ascii) (s : string) :
  indexOf p (String x s)
  = if startsWith p (String x s) then Some 0 else S <$> indexOf p s.
Proof. reflexivity. Qed.

(** Where the pattern first occurs does not depend on what follows that
    occurrence. *)
Lemma indexOf_first_stable (p a b c : string) :
  indexOf p (a +:+ p +:+ b) = Some (String.length a) ->
  indexOf p (a +:+ p +:+ c) = Some (String.length a).
Proof.
  induction a as [|x a IH].
  - intros _. change ("" +:+ p +:+ c) with (p +:+ c).
    apply indexOf_startsWith, startsWith_append.
  - rewrite !append_cons, !indexOf_cons.
    rewrite <- !append_cons, <- !append_assoc.
    rewrite (startsWith_reads_prefix p _ b c)
      by (rewrite length_append; lia).
    rewrite !append_assoc.
    destruct (startsWith p _); [done|].
    destruct (indexOf p (a +:+ p +:+ b)) as [i|] eqn:E; [|done].
    simpl. intros [= ->]. by rewrite IH.
Qed.

End FirstOccurrence.

Section PatchTwice.

Context {F : Type} (deref : F -> ExpoNativeFontOptions).

(** One round on an [Info.plist] that is there and has a [<dict>]. *)
Lemma updateInfoPlist_target_dict (grouped : FontsGrouped F)
    (targetName : string) (targetFonts : list F) (w : World)
    (before after : string) :
  let plistFilePath := plistFilePath_of (projectRoot w) targetName in
  let patched :=
    before +:+ "<dict>" +:+ insertionContents deref targetFonts +:+ after in
  JsObject.get targetName grouped = Some targetFonts ->
  files w !! plistFilePath = Some (before +:+ "<dict>" +:+ after) ->
  Fs.is_dir w plistFilePath = false ->
  JsString.indexOf "<dict>" (before +:+ "<dict>" +:+ after)
    = Some (String.length before) ->
  updateInfoPlist_target deref grouped targetName w
  = (Ret tt,
     {| files := <[plistFilePath := patched]> (files w);
        dirs := dirs w; heap := heap w;
        projectRoot := projectRoot w; modResults := modResults w;
        console :=
          (console w ++ [LogString ("plistFilePath: " +:+ plistFilePath)])%list;
        calls :=
          (calls w ++ [writeFileSync_call plistFilePath patched])%list |}).
Proof.
  intros plistFilePath patched Hget Hfile Hdir Hidx.
  subst plistFilePath patched.
  unfold updateInfoPlist_target. rewrite Hget.
  unfold Fs.is_dir in Hdir.
  run_monad. rewrite !Hfile. run_monad. rewrite ?Hfile, ?Hdir, Hidx.
  run_monad. rewrite ?Hfile, ?Hdir. simpl.
  change (String.length before + 6)
    with (String.length before + String.length "<dict>").
  rewrite (slice_to_split _ before after "<dict>" _ eq_refl eq_refl).
  rewrite (slice_from_split _ (before +:+ "<dict>") after);
    [| by rewrite append_assoc | by rewrite length_append].
  by rewrite !append_assoc.
Qed.

(** X9.  The patch does not look for a font array that is already there.
    Patching the same target a second time splices the array in again, at
    the same place: the file then holds two [UIAppFonts] keys. *)
Theorem patching_twice_duplicates (grouped : FontsGrouped F)
    (targetName : string) (targetFonts : list F) (w : World)
    (before after : string) :
  let plistFilePath := plistFilePath_of (projectRoot w) targetName in
  let fragment := insertionContents deref targetFonts in
  let twice :=
    (updateInfoPlist_target deref grouped targetName ;;;
     updateInfoPlist_target deref grouped targetName) w in
  JsObject.get targetName grouped = Some targetFonts ->
  files w !! plistFilePath = Some (before +:+ "<dict>" +:+ after) ->
  Fs.is_dir w plistFilePath = false ->
  JsString.indexOf "<dict>" (before +:+ "<dict>" +:+ after)
    = Some (String.length before) ->
  fst twice = Ret tt
  /\ files (snd twice)
     = <[plistFilePath :=
           before +:+ "<dict>" +:+ fragment +:+ fragment +:+ after]>
         (files w).
Proof.
  intros plistFilePath fragment twice Hget Hfile Hdir Hidx. subst twice.
  unfold bind.
  rewrite (updateInfoPlist_target_dict grouped targetName targetFonts w
             before after Hget Hfile Hdir Hidx).
  fold plistFilePath fragment.
  rewrite (updateInfoPlist_target_dict grouped targetName targetFonts _
             before (fragment +:+ after) Hget).
  - simpl. split; [done|]. fold plistFilePath fragment.
    by rewrite insert_insert_eq.
  - simpl. apply lookup_insert_eq.
  - exact Hdir.
  - by apply (indexOf_first_stable _ _ after).
Qed.

End PatchTwice.

Lemma patching_twice_duplicates_witness :
  files (snd ((updateInfoPlist_target Sample.fontAt [("A", [0])] "A" ;;;
               updateInfoPlist_target Sample.fontAt [("A", [0])] "A")
                Sample.world0))
    !! "/app/ios/A/Info.plist"
  = Some ("<plist><dict>" +:+ insertionContents Sample.fontAt [0]
            +:+ insertionContents Sample.fontAt [0] +:+ "</dict></plist>").
Proof.
  destruct (patching_twice_duplicates Sample.fontAt [("A", [0])] "A" [0]
              Sample.world0 "<plist>" "</dict></plist>"
              eq_refl ltac:(vm_compute; reflexivity)
              ltac:(vm_compute; reflexivity) ltac:(vm_compute; reflexivity))
    as [_ Hfiles].
  rewrite Hfiles. vm_compute. reflexivity.
Defined.

(* ===================================================================== *)
(** * Display names of files with one extension *)
(* ===================================================================== *)

Section SingleDot.

Import JsString Path.

Lemma indexOf_after_free (x : ascii) (p s b : string) :
  Forall (fun c => Ascii.eqb c x = false) (list_ascii_of_string s) ->
  indexOf (String x p) (s +:+ String x p +:+ b) = Some (String.length s).
Proof.
  induction s as [|c s IH]; simpl list_ascii_of_string.
  - intros _. change ("" +:+ String x p +:+ b) with (String x p +:+ b).
    apply indexOf_startsWith, startsWith_append.
  - intros [Hc Hs]%Forall_cons. rewrite append_cons, indexOf_cons.
    simpl startsWith. rewrite Ascii.eqb_sym, Hc. simpl.
    by rewrite IH.
Qed.

(** The extension of a base name [stem.ext] with one dot and a stem that
    is not empty. *)
Lemma extname_single_dot (p stem ext : string) :
  basename p = stem +:+ "." +:+ ext ->
  stem <> "" ->
  Forall (fun c => is_dot c = false) (list_ascii_of_string stem) ->
  Forall (fun c => is_dot c = false) (list_ascii_of_string ext) ->
  extname p = "." +:+ ext.
Proof.
  intros Hbase Hne Hstem Hext.
  assert (Hb : last_component p
               = (list_ascii_of_string stem
                  ++ "."%char :: list_ascii_of_string ext)%list).
  { apply (f_equal list_ascii_of_string) in Hbase. unfold basename in Hbase.
    by rewrite list_ascii_of_string_of_list_ascii, list_ascii_append in Hbase. }
  unfold extname. rewrite Hb.
  assert (Hdot : existsb is_dot
                   (list_ascii_of_string stem
                    ++ "."%char :: list_ascii_of_string ext) = true).
  { apply existsb_exists. exists "."%char. split; [|done].
    apply in_or_app. right. by left. }
  rewrite Hdot, rev_app_distr. simpl rev. rewrite <- app_assoc. simpl app.
  rewrite keep_while_app_stop; [| |done].
  2:{ apply Forall_rev. eapply Forall_impl; [exact Hext|].
      intros c Hc. simpl. by rewrite Hc. }
  rewrite length_app, length_rev. simpl length.
  destruct stem as [|c stem]; [done|].
  apply Forall_cons in Hstem as [Hc _].
  replace (length (list_ascii_of_string (String c stem))
           + S (length (list_ascii_of_string ext))
           =? S (length (list_ascii_of_string ext))) with false
    by (symmetry; apply Nat.eqb_neq; simpl; lia).
  simpl list_ascii_of_string. simpl app. simpl string_of_list_ascii.
  unfold is_dot in Hc.
  replace (String.eqb
             (String c
                (string_of_list_ascii
                   (list_ascii_of_string stem
                    ++ "."%char :: list_ascii_of_string ext))) "..")
    with false by (simpl; by rewrite Hc).
  by rewrite rev_involutive, string_of_list_ascii_of_string.
Qed.

(** X10.  The display name derived from a file whose base name is [stem.ext],
    with a stem that is not empty and no other dot, is the stem. *)
Theorem getFontName_single_dot (font : ExpoNativeFontOptions)
    (stem ext : string) :
  truthy (name font) = None ->
  basename (filePath font) = stem +:+ "." +:+ ext ->
  stem <> "" ->
  Forall (fun c => is_dot c = false) (list_ascii_of_string stem) ->
  Forall (fun c => is_dot c = false) (list_ascii_of_string ext) ->
  getFontName font = stem.
Proof.
  intros Hname Hbase Hne Hstem Hext. unfold getFontName. rewrite Hname.
  rewrite (extname_single_dot _ stem ext Hbase Hne Hstem Hext), Hbase.
  change (stem +:+ "." +:+ ext) with (stem +:+ String "." ext).
  change ("." +:+ ext) with (String "." ext).
  assert (Hidx : indexOf (String "." ext) (stem +:+ String "." ext)
                 = Some (String.length stem)).
  { pose proof (indexOf_after_free "." ext stem "" Hstem) as H.
    by rewrite append_empty_r in H. }
  assert (Hfrom : slice_from (String.length stem + String.length (String "." ext))
                    (stem +:+ String "." ext) = "").
  { rewrite <- length_append.
    pose proof (slice_from_append (stem +:+ String "." ext) "") as H.
    by rewrite append_empty_r in H. }
  unfold replace. rewrite Hidx, Hfrom, slice_to_append.
  change ("" +:+ "") with "". apply append_empty_r.
Qed.

End SingleDot.

Lemma getFontName_single_dot_witness :
  getFontName {| filePath := "assets/fonts/Inter-Bold.ttf"; name := Some "";
                 platform := None; targets := Some ["A"] |}
  = "Inter-Bold".
Proof.
  apply (getFontName_single_dot
           {| filePath := "assets/fonts/Inter-Bold.ttf"; name := Some "";
              platform := None; targets := Some ["A"] |}
           "Inter-Bold" "ttf");
    [reflexivity | reflexivity | discriminate
    | repeat constructor | repeat constructor].
Defined.

(* ===================================================================== *)
(** * The copy of the font folder *)
(* ===================================================================== *)

Section CopyResult.

Context {F : Type}.

Lemma append_inv_head (a b c : string) : a +:+ b = a +:+ c -> b = c.
Proof.
  induction a as [|x a IH]; [done|]. rewrite !append_cons.
  intros [= H]. by apply IH.
Qed.



(** A path that does not end in a separator is read as it is. *)
Lemma strip_trailing_plain (p : string) (c : ascii) (l : list ascii) :
  rev (list_ascii_of_string p) = c :: l -> Path.is_sep c = false ->
  Fs.strip_trailing p = p.
Proof.
  intros Hrev Hc. unfold Fs.strip_trailing. rewrite Hrev. simpl.
  rewrite Hc, <- Hrev, rev_involutive.
  destruct p as [|a p']; [by destruct l|]. simpl.
  by rewrite string_of_list_ascii_of_string.
Qed.






End CopyResult.


(** The copy stops where a regular file would replace a directory of
    [ios/Fonts]; what was copied before stays. *)
Example copyFontFiles_conflict :
  let w :=
    {| files := files Sample.world0;
       dirs := {["/app/ios/Fonts/font1.ttf"]} ∪ dirs Sample.world0;
       heap := heap Sample.world0; projectRoot := "/app";
       modResults := modResults Sample.world0; console := [];
       calls := [] |} in
  fst (copyFontFiles (Sample.options [0; 1]) w)
  = Throw (Error ("Cannot overwrite directory '/app/ios/Fonts/font1.ttf' "
                  +:+ "with non-directory '/app/assets/fonts/font1.ttf'.")).
Proof. vm_compute. reflexivity. Qed.

(* ===================================================================== *)
(** * Paths in normal form *)
(* ===================================================================== *)

Section PlainPaths.

Import Path.

Lemma plain_segment_spec (s : string) :
  plain_segment s = true ->
  (String.eqb s "" || String.eqb s "." = false)
  /\ String.eqb s ".." = false
  /\ Forall (fun c => is_sep c = false) (list_ascii_of_string s)
  /\ exists c s', s = String c s' /\ is_sep c = false.
Proof.
  unfold plain_segment. rewrite !andb_true_iff, !negb_true_iff.
  intros [[[H1 H2] H3] H4].
  assert (Hall : Forall (fun c => is_sep c = false) (list_ascii_of_string s)).
  { apply Forall_forall. intros c Hc. apply list_elem_of_In in Hc.
    rewrite forallb_forall in H4. apply negb_true_iff. by apply H4. }
  split_and!; [by rewrite H1, H2 | done | done |].
  destruct s as [|c s']; [done|]. exists c, s'. split; [done|].
  simpl in Hall. by apply Forall_cons in Hall as [? _].
Qed.

Lemma split_sep_nosep (s rest cur : list ascii) :
  Forall (fun c => is_sep c = false) s ->
  split_sep (s ++ rest) cur = split_sep rest (rev s ++ cur).
Proof.
  intros Hs. revert cur. induction Hs as [|c s Hc _ IH]; intros cur; [done|].
  simpl. rewrite Hc, IH, <- app_assoc. done.
Qed.

Lemma join_sep_cons (s : string) (segs : list string) :
  segs <> [] -> join_sep (s :: segs) = s +:+ "/" +:+ join_sep segs.
Proof. by destruct segs. Qed.

Lemma join_sep_app (a b : list string) :
  a <> [] -> b <> [] ->
  join_sep (a ++ b) = join_sep a +:+ "/" +:+ join_sep b.
Proof.
  intros Ha Hb. induction a as [|x a IH]; [done|].
  destruct a as [|y a].
  - simpl app. by rewrite join_sep_cons.
  - change ((x :: y :: a) ++ b)%list with (x :: ((y :: a) ++ b))%list.
    rewrite join_sep_cons by done. rewrite IH by done.
    rewrite (join_sep_cons x (y :: a)) by done. by rewrite !append_assoc.
Qed.

(** The segments of plain segments joined by the separator. *)
Lemma segments_join_sep (segs : list string) (cur : list ascii) :
  segs <> [] -> forallb plain_segment segs = true ->
  split_sep (list_ascii_of_string (join_sep segs)) cur
  = match segs with
    | [] => []
    | s :: rest =>
        string_of_list_ascii (rev cur ++ list_ascii_of_string s) :: rest
    end.
Proof.
  intros Hne. revert cur. induction segs as [|s segs IH]; [done|].
  intros cur [Hs Hrest]%andb_true_iff.
  destruct (plain_segment_spec s Hs) as (_ & _ & Hnosep & _).
  destruct segs as [|s2 segs].
  - simpl join_sep.
    rewrite <- (app_nil_r (list_ascii_of_string s)), split_sep_nosep by done.
    simpl. by rewrite rev_app_distr, rev_involutive, app_nil_r.
  - rewrite join_sep_cons by done. rewrite list_ascii_append.
    change (list_ascii_of_string ("/" +:+ join_sep (s2 :: segs)))
      with ("/"%char :: list_ascii_of_string (join_sep (s2 :: segs))).
    rewrite split_sep_nosep by done. simpl split_sep at 1.
    rewrite IH by done. simpl rev at 2. simpl app at 2.
    rewrite string_of_list_ascii_of_string.
    by rewrite rev_app_distr, rev_involutive.
Qed.

Lemma normalize_segments_plain (b : bool) (segs acc : list string) :
  forallb plain_segment segs = true ->
  normalize_segments b segs acc = (rev acc ++ segs)%list.
Proof.
  revert acc; induction segs as [|s segs IH]; intros acc; simpl.
  - intros _. by rewrite app_nil_r.
  - intros [Hs Hrest]%andb_true_iff.
    destruct (plain_segment_spec s Hs) as (H1 & H2 & _).
    rewrite H1, H2, IH by done. simpl. by rewrite <- app_assoc.
Qed.

Lemma join_sep_head (segs : list string) :
  segs <> [] -> forallb plain_segment segs = true ->
  exists c body, join_sep segs = String c body /\ is_sep c = false.
Proof.
  destruct segs as [|s segs]; [done|]. intros _ [Hs _]%andb_true_iff.
  destruct (plain_segment_spec s Hs) as (_ & _ & _ & c & s' & -> & Hc).
  destruct segs as [|s2 segs].
  - by exists c, s'.
  - rewrite join_sep_cons by done. rewrite append_cons. by eexists _, _.
Qed.

Lemma join_sep_last (segs : list string) :
  segs <> [] -> forallb plain_segment segs = true ->
  exists d l, rev (list_ascii_of_string (join_sep segs)) = d :: l
              /\ is_sep d = false.
Proof.
  intros Hne. induction segs as [|s segs IH]; [done|].
  intros [Hs Hrest]%andb_true_iff.
  destruct segs as [|s2 segs].
  - simpl join_sep.
    destruct (plain_segment_spec s Hs) as (_ & _ & Hall & c & s' & Heq & _).
    apply Forall_rev in Hall.
    destruct (rev (list_ascii_of_string s)) as [|d l] eqn:E.
    + apply (f_equal (@rev ascii)) in E. rewrite rev_involutive in E.
      subst s. done.
    + exists d, l. split; [done|]. by apply Forall_cons in Hall as [? _].
  - rewrite join_sep_cons by done. rewrite list_ascii_append, rev_app_distr.
    destruct (IH ltac:(done) Hrest) as (d & l & Hrev & Hd).
    change (rev (list_ascii_of_string ("/" +:+ join_sep (s2 :: segs))))
      with (rev (list_ascii_of_string (join_sep (s2 :: segs)))
            ++ ["/"%char])%list.
    rewrite Hrev. simpl. by eexists _, _.
Qed.

(** An absolute path of plain segments is in normal form. *)
Lemma normalize_absolute (segs : list string) :
  segs <> [] -> forallb plain_segment segs = true ->
  normalize (absolute_path segs) = absolute_path segs.
Proof.
  intros Hne Hplain. unfold absolute_path.
  change ("/" +:+ join_sep segs) with (String "/" (join_sep segs)).
  unfold normalize, segments.
  simpl list_ascii_of_string. simpl split_sep.
  rewrite segments_join_sep by done.
  destruct (join_sep_last segs Hne Hplain) as (d & l & Hrev & Hd).
  simpl rev. rewrite Hrev. simpl app. cbv beta iota. rewrite Hd.
  destruct segs as [|s segs]; [done|].
  simpl app. rewrite string_of_list_ascii_of_string.
  change (normalize_segments ?b ("" :: ?segs') [])
    with (normalize_segments b segs' []).
  rewrite normalize_segments_plain by done. simpl rev. simpl app.
  destruct (join_sep_head (s :: segs) Hne Hplain) as (c & body & -> & _).
  done.
Qed.

(** A relative path of plain segments is in normal form. *)
Lemma normalize_relative (segs : list string) :
  segs <> [] -> forallb plain_segment segs = true ->
  normalize (join_sep segs) = join_sep segs.
Proof.
  intros Hne Hplain.
  destruct (join_sep_head segs Hne Hplain) as (c & body & Hjoin & Hc).
  unfold normalize, segments.
  destruct (join_sep segs) as [|c' body'] eqn:E; [done|].
  injection Hjoin as -> _. rewrite <- E.
  rewrite segments_join_sep by done.
  destruct (join_sep_last segs Hne Hplain) as (d & l & Hrev & Hd).
  rewrite Hrev. cbv beta iota. rewrite Hd, Hc.
  destruct segs as [|s segs]; [done|].
  simpl app. rewrite string_of_list_ascii_of_string.
  simpl negb. rewrite normalize_segments_plain by done. simpl rev. simpl app.
  by rewrite E.
Qed.

End PlainPaths.

(* ===================================================================== *)
(** * The paths the plugin works on *)
(* ===================================================================== *)

Section JoinedPaths.

Import Path.

Lemma join_sep_concat (parts : list (list string)) :
  parts <> [] -> Forall (fun p => p <> []) parts ->
  join_sep (map join_sep parts) = join_sep (concat parts)
  /\ concat parts <> [].
Proof.
  intros Hne Hall. induction Hall as [|p parts Hp Hall IH]; [done|].
  destruct parts as [|q parts].
  - simpl. by rewrite app_nil_r.
  - destruct (IH ltac:(done)) as [IH1 IH2]. split.
    + change (map join_sep (p :: q :: parts))
        with (join_sep p :: map join_sep (q :: parts)).
      rewrite join_sep_cons by done. rewrite IH1.
      change (concat (p :: q :: parts)) with (p ++ concat (q :: parts))%list.
      by rewrite join_sep_app.
    + change (concat (p :: q :: parts)) with (p ++ concat (q :: parts))%list.
      by destruct p.
Qed.

Lemma forallb_concat (parts : list (list string)) :
  Forall (fun p => forallb plain_segment p = true) parts ->
  forallb plain_segment (concat parts) = true.
Proof.
  induction 1 as [|p parts Hp _ IH]; [done|].
  simpl. by rewrite forallb_app, Hp, IH.
Qed.

Lemma filter_nonempty (l : list string) :
  Forall (fun s => s <> "") l ->
  List.filter (fun s => negb (String.eqb s "")) l = l.
Proof.
  induction 1 as [|s l Hs _ IH]; [done|]. simpl. rewrite IH.
  destruct (String.eqb s "") eqn:E; [by apply String.eqb_eq in E | done].
Qed.

Lemma join_sep_nonempty (p : list string) :
  p <> [] -> forallb plain_segment p = true -> join_sep p <> "".
Proof.
  intros Hne Hp. destruct (join_sep_head p Hne Hp) as (c & body & -> & _).
  done.
Qed.

(** [path.join] of an absolute path of plain segments and relative paths
    of plain segments puts the segments one after the other. *)
Lemma join_absolute (rs : list string) (parts : list (list string)) :
  rs <> [] -> forallb plain_segment rs = true ->
  Forall (fun p => p <> []) parts ->
  Forall (fun p => forallb plain_segment p = true) parts ->
  join (absolute_path rs :: map join_sep parts)
  = absolute_path (rs ++ concat parts).
Proof.
  intros Hne Hrs Hparts Hplain. unfold join.
  rewrite filter_nonempty.
  2:{ constructor; [done|]. apply Forall_map.
      apply Forall_forall. intros p Hp.
      rewrite Forall_forall in Hparts. rewrite Forall_forall in Hplain.
      apply join_sep_nonempty; auto. }
  cbv beta iota.
  assert (Hjoin : join_sep (absolute_path rs :: map join_sep parts)
                  = absolute_path (rs ++ concat parts)).
  { destruct parts as [|p parts]; [by rewrite app_nil_r|].
    destruct (join_sep_concat (p :: parts) ltac:(done) Hparts) as [Hc Hcne].
    rewrite join_sep_cons by done. rewrite Hc.
    unfold absolute_path. rewrite join_sep_app by done.
    by rewrite !append_assoc. }
  rewrite Hjoin. apply normalize_absolute.
  - by destruct rs.
  - rewrite forallb_app, Hrs. by apply forallb_concat.
Qed.

(** [path.join] of relative paths of plain segments. *)
Lemma join_relative (parts : list (list string)) :
  parts <> [] ->
  Forall (fun p => p <> []) parts ->
  Forall (fun p => forallb plain_segment p = true) parts ->
  join (map join_sep parts) = join_sep (concat parts).
Proof.
  intros Hne Hparts Hplain. unfold join.
  rewrite filter_nonempty.
  2:{ apply Forall_map. apply Forall_forall. intros p Hp.
      rewrite Forall_forall in Hparts. rewrite Forall_forall in Hplain.
      apply join_sep_nonempty; auto. }
  destruct (join_sep_concat parts Hne Hparts) as [Hc Hcne].
  destruct parts as [|p parts]; [done|].
  change (map join_sep (p :: parts)) with (join_sep p :: map join_sep parts).
  cbv beta iota.
  change (join_sep p :: map join_sep parts) with (map join_sep (p :: parts)).
  rewrite Hc. apply normalize_relative; [done|]. by apply forallb_concat.
Qed.

Lemma append_inv_tail (a b c : string) : a +:+ c = b +:+ c -> a = b.
Proof.
  intros H.
  assert (Hlen : String.length a = String.length b).
  { apply (f_equal String.length) in H. rewrite !length_append in H. lia. }
  revert b H Hlen; induction a as [|x a IH]; intros [|y b]; try done.
  rewrite !append_cons. intros [= -> H] [= Hlen]. f_equal. by apply IH.
Qed.

(** The text before the first separator. *)
Lemma first_segment_unique (a b x y : string) :
  Forall (fun c => is_sep c = false) (list_ascii_of_string a) ->
  Forall (fun c => is_sep c = false) (list_ascii_of_string b) ->
  a +:+ "/" +:+ x = b +:+ "/" +:+ y -> a = b.
Proof.
  revert b; induction a as [|c a IH]; intros [|d b] Ha Hb; try done.
  - rewrite append_cons. intros [= <- _]. simpl in Hb.
    by apply Forall_cons in Hb as [? _].
  - rewrite append_cons. intros [= -> _]. simpl in Ha.
    by apply Forall_cons in Ha as [? _].
  - rewrite !append_cons. intros [= -> H]. f_equal.
    simpl in Ha, Hb. apply Forall_cons in Ha as [_ Ha].
    apply Forall_cons in Hb as [_ Hb]. by apply IH.
Qed.

Lemma startsWith_common (a p s : string) :
  JsString.startsWith (a +:+ p) (a +:+ s) = JsString.startsWith p s.
Proof.
  induction a as [|c a IH]; [done|]. rewrite !append_cons. simpl.
  by rewrite Ascii.eqb_refl.
Qed.

End JoinedPaths.

Section PluginPaths.

Import Path.

(** X12.  The property list of a target. Below an absolute project root, a
    target whose name is a plain path segment has its property list at
    [<root>/ios/<target>/Info.plist]; two such targets have different
    property lists; and only the target named [Fonts] has its property list
    below the folder [ios/Fonts], into which the fonts are copied. *)
Theorem plist_paths_of_plain_targets (rs : list string) (t : string) :
  let root := absolute_path rs in
  rs <> [] -> forallb plain_segment rs = true -> plain_segment t = true ->
  plistFilePath_of root t = root +:+ "/ios/" +:+ t +:+ "/Info.plist"
  /\ (forall t', plain_segment t' = true ->
        plistFilePath_of root t' = plistFilePath_of root t -> t' = t)
  /\ (t <> "Fonts" ->
      Fs.below (join [root; "ios"; "Fonts"]) (plistFilePath_of root t) = false).
Proof.
  intros root Hne Hrs Ht.
  assert (Hpath : forall t0, plain_segment t0 = true ->
             plistFilePath_of root t0
             = root +:+ "/ios/" +:+ t0 +:+ "/Info.plist").
  { intros t0 Ht0. unfold plistFilePath_of.
    change [root; "ios"; t0; "Info.plist"]
      with (absolute_path rs
            :: map join_sep [["ios"]; [t0]; ["Info.plist"]]).
    rewrite join_absolute; [|done|done|by repeat constructor|].
    2:{ repeat constructor. simpl. by rewrite Ht0. }
    unfold root, absolute_path. simpl concat.
    rewrite join_sep_app by done. simpl join_sep.
    by rewrite !append_assoc. }
  split; [by apply Hpath|]. split.
  - intros t' Ht' Heq. rewrite !Hpath in Heq by done.
    apply append_inv_head, append_inv_head in Heq.
    by apply append_inv_tail in Heq.
  - intros Hfonts. rewrite Hpath by done.
    change [root; "ios"; "Fonts"]
      with (absolute_path rs :: map join_sep [["ios"]; ["Fonts"]]).
    rewrite join_absolute; [|done|done|by repeat constructor
                            |by repeat constructor].
    unfold Fs.below, root, absolute_path. simpl concat.
    rewrite join_sep_app by done. simpl join_sep.
    replace (("/" +:+ join_sep rs +:+ "/" +:+ "ios" +:+ "/" +:+ "Fonts")
             +:+ "/")
      with (("/" +:+ join_sep rs +:+ "/ios/") +:+ "Fonts/")
      by by rewrite !append_assoc.
    replace (("/" +:+ join_sep rs) +:+ "/ios/" +:+ t +:+ "/Info.plist")
      with (("/" +:+ join_sep rs +:+ "/ios/") +:+ t +:+ "/Info.plist")
      by by rewrite !append_assoc.
    rewrite startsWith_common.
    apply not_true_is_false. intros Hstarts.
    apply startsWith_split in Hstarts.
    destruct (plain_segment_spec t Ht) as (_ & _ & Hnosep & _).
    apply Hfonts.
    apply (first_segment_unique t "Fonts" "Info.plist"
             (JsString.slice_from (String.length "Fonts/")
                (t +:+ "/Info.plist")));
      [done | by repeat constructor | exact Hstarts].
Qed.

(** X13.  Where a registered font is. For an absolute project root, a source
    folder and a font path of plain segments, the file
    [<root>/<srcFolder>/<filePath>] lies below the folder that
    [copyFontFiles] copies, and the place it is copied to is the path
    [addFontToXcodeProj] registers, [Fonts/<filePath>], read from
    [<root>/ios]. *)
Theorem registered_path_is_copy_destination (rs ss fs : list string) :
  let root := absolute_path rs in
  let srcFolder := join_sep ss in
  let filePath := join_sep fs in
  let sourceDir := join [root; srcFolder] in
  let targetDir := join [root; "ios"; "Fonts"] in
  let source := join [root; srcFolder; filePath] in
  rs <> [] -> forallb plain_segment rs = true ->
  ss <> [] -> forallb plain_segment ss = true ->
  fs <> [] -> forallb plain_segment fs = true ->
  Fs.below sourceDir source = true
  /\ Fs.relocate sourceDir targetDir source
     = join [root; "ios"; join ["Fonts"; filePath]].
Proof.
  intros root srcFolder filePath sourceDir targetDir source
    Hrs Hprs Hss Hpss Hfs Hpfs.
  assert (HsourceDir : sourceDir = absolute_path (rs ++ ss)).
  { unfold sourceDir, root, srcFolder.
    change [absolute_path rs; join_sep ss]
      with (absolute_path rs :: map join_sep [ss]).
    rewrite join_absolute by (try done; by repeat constructor).
    simpl. by rewrite app_nil_r. }
  assert (HtargetDir : targetDir = absolute_path (rs ++ ["ios"; "Fonts"])).
  { unfold targetDir, root.
    change [absolute_path rs; "ios"; "Fonts"]
      with (absolute_path rs :: map join_sep [["ios"]; ["Fonts"]]).
    by rewrite join_absolute by (try done; by repeat constructor). }
  assert (Hsource : source = sourceDir +:+ "/" +:+ filePath).
  { rewrite HsourceDir. unfold source, root, srcFolder, filePath.
    change [absolute_path rs; join_sep ss; join_sep fs]
      with (absolute_path rs :: map join_sep [ss; fs]).
    rewrite join_absolute by (try done; by repeat constructor).
    simpl concat. rewrite app_nil_r. unfold absolute_path.
    rewrite app_assoc, join_sep_app; [|by destruct rs|done].
    by rewrite !append_assoc. }
  assert (Hregistered : join ["Fonts"; filePath] = join_sep ("Fonts" :: fs)).
  { unfold filePath.
    change ["Fonts"; join_sep fs] with (map join_sep [["Fonts"]; fs]).
    rewrite join_relative by (try done; by repeat constructor).
    simpl. by rewrite app_nil_r. }
  split.
  - unfold Fs.below. rewrite Hsource, <- append_assoc.
    apply startsWith_append.
  - unfold Fs.relocate. rewrite Hsource, slice_from_append.
    rewrite Hregistered, HtargetDir.
    change [root; "ios"; join_sep ("Fonts" :: fs)]
      with (absolute_path rs :: map join_sep [["ios"]; "Fonts" :: fs]).
    rewrite join_absolute by (try done; by repeat constructor).
    simpl concat. rewrite app_nil_r. unfold absolute_path.
    change (rs ++ "ios" :: "Fonts" :: fs)%list
      with (rs ++ ["ios"; "Fonts"] ++ fs)%list.
    rewrite app_assoc, (join_sep_app (rs ++ ["ios"; "Fonts"]));
      [|by destruct rs|done].
    by rewrite !append_assoc.
Qed.

End PluginPaths.

Lemma plist_paths_of_plain_targets_witness :
  plistFilePath_of "/app" "A" = "/app/ios/A/Info.plist"
  /\ Fs.below "/app/ios/Fonts" (plistFilePath_of "/app" "A") = false.
Proof.
  destruct (plist_paths_of_plain_targets ["app"] "A"
              ltac:(done) eq_refl eq_refl)
    as (Hpath & _ & Hbelow).
  split; [exact Hpath | exact (Hbelow ltac:(done))].
Defined.

Lemma registered_path_is_copy_destination_witness :
  Fs.relocate "/app/assets/fonts" "/app/ios/Fonts"
    "/app/assets/fonts/sub/font2.ttf"
  = "/app/ios/Fonts/sub/font2.ttf".
Proof.
  exact (proj2 (registered_path_is_copy_destination
                  ["app"] ["assets"; "fonts"] ["sub"; "font2.ttf"]
                  ltac:(done) eq_refl ltac:(done) eq_refl
                  ltac:(done) eq_refl)).
Defined.

(* ===================================================================== *)
(** * Registration in place *)
(* ===================================================================== *)

Section InPlace.

Context {F : Type} (deref : F -> ExpoNativeFontOptions).
Context (addResourceFileToGroup : Capability).
Hypothesis in_place : returns_its_argument addResourceFileToGroup.

Lemma register_files_same_project (project : nat) (targetUuid : string)
    (fontFiles : list string) (w : World) (o : Outcome unit) (w' : World) :
  modResults w = project ->
  for_of fontFiles
    (addFontToXcodeProj_file addResourceFileToGroup project targetUuid) w
    = (o, w') ->
  modResults w' = project.
Proof.
  revert w; induction fontFiles as [|filePath rest IH]; intros w Hmod.
  - by intros [= <- <-].
  - rewrite for_of_cons, addFontToXcodeProj_file_run.
    destruct (addResourceFileToGroup _ (heap w)) as [[p|e] h'] eqn:Ecall.
    + apply in_place in Ecall. simpl in Ecall. subst p.
      intros Hrun. by apply IH in Hrun.
    + by intros [= <- <-].
Qed.

Lemma addFontToXcodeProj_same_project (options : ExpoNativeFontsOptions F)
    (targetName : string) (fonts : list F) (w : World)
    (o : Outcome unit) (w' : World) :
  addFontToXcodeProj deref addResourceFileToGroup options targetName fonts w
    = (o, w') ->
  modResults w' = modResults w
  /\ exists cs,
       calls w' = (calls w ++ cs)%list
       /\ Forall (fun args => project args = modResults w) (registrations cs).
Proof.
  unfold addFontToXcodeProj, getPBXTargetByName. run_monad.
  destruct (heap w !! modResults w) as [obj|]; run_monad.
  2:{ intros [= <- <-]. simpl. split; [done|]. eexists. split; [done|].
      simpl. constructor. }
  destruct (target _) as [t|]; run_monad.
  2:{ intros [= <- <-]. simpl. split; [done|]. eexists. split; [done|].
      simpl. constructor. }
  destruct (truthy _) as [u|]; run_monad.
  2:{ intros [= <- <-]. simpl. split; [done|]. eexists. split; [done|].
      simpl. constructor. }
  match goal with
  | |- context [for_of ?l ?body ?w1] =>
      destruct (for_of l body w1) as [o1 w2] eqn:Hloop
  end.
  pose proof Hloop as Hmod.
  apply register_files_same_project in Hmod; [|reflexivity].
  apply register_files_calls in Hloop as (done_ & _ & _ & Hcalls).
  simpl in Hmod, Hcalls.
  assert (Hshape : exists cs,
             calls w2 = (calls w ++ cs)%list
             /\ Forall (fun args => project args = modResults w)
                       (registrations cs)).
  { rewrite Hcalls, <- app_assoc. eexists. split; [reflexivity|].
    simpl registrations.
    rewrite (registrations_map
               (fun filePath =>
                  {| filepath := Path.join ["Fonts"; filePath];
                     groupName := "Resources";
                     project := modResults w;
                     isBuildFile := true;
                     verbose := true;
                     targetUuid := u |})).
    apply Forall_forall. intros args Hin.
    apply list_elem_of_In, in_map_iff in Hin as (x & <- & _). done. }
  destruct o1 as [[]|e]; run_monad; by intros [= <- <-].
Qed.

Lemma updateXcodeProject_loop_same_project
    (options : ExpoNativeFontsOptions F) (grouped : FontsGrouped F)
    (targetNames : list string) (w : World) (o : Outcome unit) (w' : World) :
  for_of targetNames
    (fun target =>
       match JsObject.get target grouped with
       | Some fonts =>
           addFontToXcodeProj deref addResourceFileToGroup options target fonts
       | None => throw (TypeError "fonts is undefined")
       end) w = (o, w') ->
  modResults w' = modResults w
  /\ exists cs,
       calls w' = (calls w ++ cs)%list
       /\ Forall (fun args => project args = modResults w) (registrations cs).
Proof.
  revert w; induction targetNames as [|targetName rest IH]; intros w.
  - intros [= <- <-]. split; [done|]. exists []. by rewrite app_nil_r.
  - rewrite for_of_cons.
    destruct (JsObject.get targetName grouped) as [fonts|].
    + destruct (addFontToXcodeProj _ _ _ _ _ w) as [o1 w1] eqn:Hadd.
      apply addFontToXcodeProj_same_project in Hadd
        as (Hmod & cs & Hcalls & Hall).
      destruct o1 as [[]|e].
      * intros Hrun. apply IH in Hrun as (Hmod' & cs' & Hcalls' & Hall').
        rewrite Hmod in Hmod', Hall'. split; [done|].
        exists (cs ++ cs')%list.
        split; [by rewrite Hcalls', Hcalls, app_assoc|].
        rewrite registrations_app. by apply Forall_app.
      * intros [= <- <-]. split; [done|]. by exists cs.
    + intros [= <- <-]. split; [done|]. exists []. by rewrite app_nil_r.
Qed.

(** X14.  With a registration capability that updates the project object in
    place and returns it, a run works on one project object from start to
    end, whatever its outcome: every registration, of every target, is given
    the project that [config.modResults] referred to when the run began, and
    [config.modResults] still refers to it afterwards. *)
Theorem in_place_run_shares_project (options : ExpoNativeFontsOptions F)
    (w : World) :
  let result :=
    injectExpoNativeFontsIOS deref addResourceFileToGroup options w in
  modResults (snd result) = modResults w
  /\ exists cs,
       calls (snd result) = (calls w ++ cs)%list
       /\ Forall (fun args => project args = modResults w) (registrations cs).
Proof.
  intros result.
  destruct (groupByTarget deref (getIOSFonts deref options))
    as [grouped|e] eqn:Hgroup.
  2:{ subst result. rewrite inject_run, Hgroup. simpl. split; [done|].
      exists []. by rewrite app_nil_r. }
  destruct (inject_steps deref addResourceFileToGroup options grouped w Hgroup)
    as (o1 & w1 & Hloop & Hrest).
  fold result in Hrest.
  pose proof (updateInfoPlist_rounds deref grouped _ _ _ _ Hloop)
    as (_ & _ & Hmod1 & plist & Hcalls1 & Hall1 & _).
  simpl in Hmod1, Hcalls1.
  destruct o1 as [[]|e1].
  2:{ rewrite Hrest. simpl. split; [done|]. exists plist. split; [done|].
      by rewrite registrations_plist. }
  pose proof (copyFontFiles_round options w1) as Hcopy.
  destruct (copyFontFiles options w1) as [o2 w2].
  unfold copy_round in Hcopy. simpl in Hcopy.
  destruct Hcopy as (_ & _ & Hmod2 & mk & cp & Hcalls2 & Hmk & Hcp & _).
  assert (Hfront : registrations (plist ++ mk ++ cp) = []).
  { rewrite !registrations_app, (registrations_plist _ Hall1).
    by destruct Hmk as [-> | ->], Hcp as [-> | ->]. }
  destruct o2 as [[]|e2].
  2:{ rewrite Hrest. simpl. split; [congruence|].
      exists (plist ++ mk ++ cp)%list.
      split; [by rewrite Hcalls2, Hcalls1, <- app_assoc|].
      by rewrite Hfront. }
  rewrite (surjective_pairing result) in Hrest.
  apply updateXcodeProject_loop_same_project in Hrest
    as (Hmod3 & cs & Hcalls3 & Hall3).
  split; [congruence|].
  exists ((plist ++ mk ++ cp) ++ cs)%list.
  split; [by rewrite Hcalls3, Hcalls2, Hcalls1, <- !app_assoc|].
  rewrite registrations_app, Hfront. simpl.
  by rewrite Hmod2, Hmod1 in Hall3.
Qed.

End InPlace.

Lemma in_place_run_shares_project_witness :
  modResults (snd (injectExpoNativeFontsIOS Sample.fontAt Sample.addInPlace
                     (Sample.options [0; 1]) Sample.world0))
  = 0.
Proof.
  exact (proj1 (in_place_run_shares_project Sample.fontAt Sample.addInPlace
                  addInPlace_returns_its_argument
                  (Sample.options [0; 1]) Sample.world0)).
Defined.

(* ===================================================================== *)
(** * Property lists on disk when targets are resolved *)
(* ===================================================================== *)

Section PatchedOnDisk.

Context {F : Type} (deref : F -> ExpoNativeFontOptions).
Context (addResourceFileToGroup : Capability).


End PatchedOnDisk.



